(** * taskflow: a shallow embedding of the formatter, the waiter primitive,
      the worker endpoint derivation and the test helpers

    Python objects that are mutated in place (futures, tree nodes, the
    formatter cache) live in explicit stores that are threaded through the
    functions; exceptions are the [Raise] branch of [outcome]; loops whose
    termination depends on the input carry a fuel argument and return
    [None] when it runs out. *)

From Stdlib Require Import Ascii.
From stdpp Require Import gmap strings list relations pretty.

(** ** Exceptions and results *)

(** A captured exception: its type and its message. *)
Record failure : Type := Failure {
  exception_type : string;
  exception_str : string
}.

Global Instance failure_eq_dec : EqDecision failure.
Proof. solve_decision. Defined.

(** The exception classes the embedded code raises or catches. *)
Inductive exn : Type :=
| StorageFailure
| NotFound
| KeyError
| ValueError
| TypeError
| ImportError
| AssertionError
| NetworkXError
| WrappedFailure (causes : list failure).

Global Instance exn_eq_dec : EqDecision exn.
Proof. solve_decision. Defined.

(** A call either returns a value or raises. *)
Inductive outcome (A : Type) : Type :=
| Ok (a : A)
| Raise (e : exn).
Global Arguments Ok {A} a.
Global Arguments Raise {A} e.

(** ** taskflow/test.py *)

Module test.

(** [list.index]: position of the first element equal to [x], or
    [ValueError]. *)
Fixpoint index {A} `{EqDecision A} (x : A) (l : list A) : outcome nat :=
  match l with
  | [] => Raise ValueError
  | y :: l' =>
      if decide (y = x) then Ok 0
      else match index x l' with
           | Ok i => Ok (S i)
           | Raise e => Raise e
           end
  end.

(** The body of the [for sub_elem in sub_seq] loop, with [current_tail] as
    the loop state; [self.fail] raises [AssertionError]. *)
Fixpoint subsequence_loop {A} `{EqDecision A}
    (current_tail sub_seq : list A) : outcome unit :=
  match sub_seq with
  | [] => Ok tt
  | sub_elem :: sub_seq' =>
      match index sub_elem current_tail with
      | Raise ValueError => Raise AssertionError
      | Raise e => Raise e
      | Ok super_index =>
          subsequence_loop (drop (super_index + 1) current_tail) sub_seq'
      end
  end.

Definition assertIsSuperAndSubsequence {A} `{EqDecision A}
    (super_seq sub_seq : list A) : outcome unit :=
  let current_tail := super_seq in
  subsequence_loop current_tail sub_seq.

End test.

(** ** taskflow/formatters.py *)

Module formatters.

(** Python values that storage hands back: [None], strings, integers and
    dictionaries with string keys. *)
#[local] Unset Elimination Schemes.
Inductive pyval : Type :=
| VNone
| VStr (s : string)
| VInt (n : Z)
| VDict (items : list (string * pyval)).
#[local] Set Elimination Schemes.

(** The formatter cache: [cache[cache_key][atom_name] = (value, found)].
    The four inner dictionaries [format] creates are distinct objects, so
    an update of one bucket is an update of the outer map at that key. *)
Abbreviation cache_t := (gmap string (gmap string (pyval * bool))).

(** [_cached_get(cache, cache_key, atom_name, fetch_func, *args)].  The
    fetch function acts on a world [W] (whatever it reads or records); the
    call returns the result, the cache after the call and the world after
    the call.  The final store [cache[cache_key][atom_name] = ...] raises
    [KeyError] when [cache] has no dictionary under [cache_key]. *)
Definition _cached_get {W : Type} (cache : cache_t)
    (cache_key atom_name : string)
    (fetch_func : W → outcome pyval * W) (w : W)
  : outcome (pyval * bool) * cache_t * W :=
  match cache !! cache_key ≫= (λ bucket, bucket !! atom_name) with
  | Some (value, value_found) => (Ok (value, value_found), cache, w)
  | None =>
      let store value value_found w' :=
        match cache !! cache_key with
        | Some bucket =>
            (Ok (value, value_found),
             <[cache_key := <[atom_name := (value, value_found)]> bucket]> cache,
             w')
        | None => (Raise KeyError, cache, w')
        end in
      match fetch_func w with
      | (Ok value, w') => store value true w'
      | (Raise StorageFailure, w') => store VNone false w'
      | (Raise NotFound, w') => store VNone false w'
      | (Raise e, w') => (Raise e, cache, w')
      end
  end.

(** A fetch function instrumented with an invocation counter. *)
Definition counting {W : Type} (fetch_func : W → outcome pyval * W)
  : nat * W → outcome pyval * (nat * W) :=
  λ '(n, w), let '(r, w') := fetch_func w in (r, (S n, w')).

(** Modelled from the spec: [taskflow.types.tree.Node] is not among the
    sources.  A node carries its item and the references of its children;
    [Node.add] appends the child to the parent's children.  Nodes live in a
    store indexed by allocation order (a reference is an index). *)
Record node (A : Type) : Type := Node { item : A; children : list nat }.
Global Arguments Node {A} item children.
Global Arguments item {A} n.
Global Arguments children {A} n.

Definition add {A} (parent child : nat) (h : list (node A)) : list (node A) :=
  alter (λ n, Node (item n) (children n ++ [child])) parent h.

(** The execution graph as its predecessor adjacency: every node of the
    graph maps to the list of its predecessors. [predecessors_iter] raises
    for a node that is not in the graph. *)
Definition predecessors_iter `{Countable A} (graph : gmap A (list A))
    (n : A) : outcome (list A) :=
  match graph !! n with
  | Some preds => Ok preds
  | None => Raise NetworkXError
  end.

(** Loop state of [_fetch_predecessor_tree]: the node store, the work stack
    (its head is the top, the end of the Python list) and [seen]. *)
Definition walk_state (A : Type) `{Countable A} : Type :=
  (list (node A) * list (nat * A) * gset A)%type.

(** One iteration of the inner [for pred_node in ...] loop. *)
Definition visit_pred `{Countable A} (parent : nat)
    (st : walk_state A) (pred_node : A) : walk_state A :=
  let '(h, stack, seen) := st in
  let child := length h in
  let h := h ++ [Node pred_node []] in
  let h := add parent child h in
  (h, (child, pred_node) :: stack, {[pred_node]} ∪ seen).

(** The [while stack:] loop; [None] when the fuel runs out. *)
Fixpoint walk `{Countable A} (fuel : nat) (graph : gmap A (list A))
    (st : walk_state A) : option (outcome (list (node A) * gset A)) :=
  match st with
  | (h, [], seen) => Some (Ok (h, seen))
  | (h, (parent, n) :: stack, seen) =>
      match fuel with
      | 0 => None
      | S fuel' =>
          match predecessors_iter graph n with
          | Raise e => Some (Raise e)
          | Ok preds =>
              walk fuel' graph (foldl (visit_pred parent) (h, stack, seen) preds)
          end
      end
  end.

(** [_fetch_predecessor_tree(graph, atom)]: returns [len(seen)], the
    reference of the root and the store holding the tree. *)
Definition _fetch_predecessor_tree `{Countable A} (fuel : nat)
    (graph : gmap A (list A)) (atom : A)
  : option (outcome (nat * nat * list (node A))) :=
  let root := 0 in
  let h := [Node atom []] in
  match walk fuel graph (h, [(root, atom)], ∅) with
  | None => None
  | Some (Raise e) => Some (Raise e)
  | Some (Ok (h', seen)) => Some (Ok (size seen, root, h'))
  end.

(** Atoms as the formatter reads them. *)
Record atom : Type := Atom {
  name : string;
  rebind : list (string * string);
  optional : list string
}.

(** The storage facade: reads return a value or raise. *)
Record storage : Type := Storage {
  get_atom_intention : string → outcome pyval;
  get_atom_state : string → outcome pyval;
  fetch_mapped_args :
    list (string * string) → string → list string → outcome pyval;
  get_execute_result : string → outcome pyval
}.

(** Calls made on the storage facade, in the order they happen. *)
Inductive call : Type :=
| Call_get_atom_intention (atom_name : string)
| Call_get_atom_state (atom_name : string)
| Call_fetch_mapped_args (atom_name : string)
| Call_get_execute_result (atom_name : string).

Definition is_io_call (c : call) : bool :=
  match c with
  | Call_fetch_mapped_args _ | Call_get_execute_result _ => true
  | _ => false
  end.

(** A storage call: the result of the read, and the call recorded. *)
Definition storage_call (c : call) (r : outcome pyval)
  : list call → outcome pyval * list call :=
  λ log, (r, log ++ [c]).

Record FailureFormatter : Type := {
  _hide_inputs_outputs_of : list string
}.

(** State threaded through [_format_node]: the cache and the call log. *)
Definition fmt (A : Type) : Type :=
  cache_t * list call → outcome A * (cache_t * list call).

Definition fmt_ret {A} (a : A) : fmt A := λ s, (Ok a, s).

Definition fmt_bind {A B} (m : fmt A) (k : A → fmt B) : fmt B :=
  λ s, match m s with
       | (Ok a, s') => k a s'
       | (Raise e, s') => (Raise e, s')
       end.

Definition cached (cache_key atom_name : string)
    (fetch_func : list call → outcome pyval * list call)
  : fmt (pyval * bool) :=
  λ '(cache, log),
    let '(r, cache', log') :=
      _cached_get cache cache_key atom_name fetch_func log in
    (r, (cache', log')).

(** The dictionary [atom_attrs] that [_format_node] fills, as the list of
    its items in insertion order. *)
Definition _format_node_attrs (self : FailureFormatter) (st : storage)
    (nd : node atom) : fmt (list (string * pyval)) :=
  let atom := item nd in
  let atom_name := name atom in
  let atom_attrs := [] in
  fmt_bind (cached "intentions" atom_name
              (storage_call (Call_get_atom_intention atom_name)
                 (get_atom_intention st atom_name)))
  (λ '(intention, intention_found),
  let atom_attrs :=
    if intention_found : bool
    then atom_attrs ++ [("intention", intention)] else atom_attrs in
  fmt_bind (cached "states" atom_name
              (storage_call (Call_get_atom_state atom_name)
                 (get_atom_state st atom_name)))
  (λ '(state, state_found),
  let atom_attrs :=
    if state_found : bool
    then atom_attrs ++ [("state", state)] else atom_attrs in
  if decide (atom_name ∈ _hide_inputs_outputs_of self)
  then fmt_ret atom_attrs
  else
    fmt_bind (cached "requires" atom_name
                (storage_call (Call_fetch_mapped_args atom_name)
                   (fetch_mapped_args st (rebind atom) atom_name
                      (optional atom))))
    (λ '(requires, requires_found),
    let atom_attrs :=
      if requires_found : bool
      then atom_attrs ++ [("requires", requires)] else atom_attrs in
    fmt_bind (cached "provides" atom_name
                (storage_call (Call_get_execute_result atom_name)
                   (get_execute_result st atom_name)))
    (λ '(provides, provides_found),
    let atom_attrs :=
      if provides_found : bool
      then atom_attrs ++ [("provides", provides)] else atom_attrs in
    fmt_ret atom_attrs)))).

(** [FailureFormatter._format_node]. [str_dict] is Python's conversion of
    a dictionary to text, which the [%s] in the format string applies. *)
Definition _format_node (str_dict : list (string * pyval) → string)
    (self : FailureFormatter) (st : storage) (nd : node atom) : fmt string :=
  fmt_bind (_format_node_attrs self st nd)
  (λ atom_attrs,
    match atom_attrs with
    | [] => fmt_ret ("Atom '" +:+ name (item nd) +:+ "'")
    | _ => fmt_ret ("Atom '" +:+ name (item nd) +:+ "' " +:+ str_dict atom_attrs)
    end).

(** A formatter that hides the atom ['bye'], a tree node for that atom, an
    empty cache as [format] builds it, and two storages that agree on
    intentions and states and differ in inputs and outputs. *)
Definition hide_bye : FailureFormatter :=
  {| _hide_inputs_outputs_of := ["bye"] |}.

Definition bye_node : node atom := Node (Atom "bye" [] []) [].

Definition fresh_cache : cache_t :=
  {[ "intentions" := ∅; "provides" := ∅; "requires" := ∅; "states" := ∅ ]}.

Definition storage_a : storage :=
  Storage (λ _, Ok (VStr "EXECUTE")) (λ _, Ok (VStr "FAILURE"))
          (λ _ _ _, Ok (VDict [("x", VInt 1)])) (λ _, Ok (VInt 1)).

Definition storage_b : storage :=
  Storage (λ _, Ok (VStr "EXECUTE")) (λ _, Ok (VStr "FAILURE"))
          (λ _ _ _, Raise NotFound) (λ _, Ok (VStr "secret")).

(** A stand-in for the dictionary conversion: the keys, in order. *)
Definition show_keys (attrs : list (string * pyval)) : string :=
  foldr (λ kv acc, kv.1 +:+ " " +:+ acc) "" attrs.

(** *** Graphs and trees, as the claims speak about them *)

(** [edge graph n p]: [p] is a predecessor of [n]. *)
Definition edge `{Countable A} (graph : gmap A (list A)) (n p : A) : Prop :=
  ∃ preds, graph !! n = Some preds ∧ p ∈ preds.

(** Every predecessor is itself a node of the graph. *)
Definition graph_closed `{Countable A} (graph : gmap A (list A)) : Prop :=
  ∀ n p, edge graph n p → is_Some (graph !! p).

(** No node is its own transitive predecessor. *)
Definition acyclic `{Countable A} (graph : gmap A (list A)) : Prop :=
  ∀ n, ¬ tc (edge graph) n n.

(** [holds h c x]: reference [c] is a node of the store with item [x]. *)
Definition holds {A} (h : list (node A)) (c : nat) (x : A) : Prop :=
  ∃ nd, h !! c = Some nd ∧ item nd = x.

(** [child_of h t c]: [c] is among the children of node [t]. *)
Definition child_of {A} (h : list (node A)) (t c : nat) : Prop :=
  ∃ nd, h !! t = Some nd ∧ c ∈ children nd.

(** The nodes of the tree rooted at [root]. *)
Inductive in_tree {A} (h : list (node A)) (root : nat) : nat → Prop :=
| in_tree_root : in_tree h root root
| in_tree_child t c :
    in_tree h root t → child_of h t c → in_tree h root c.

(** The store only grows: nodes keep their item and their children. *)
Definition heap_le {A} (h h' : list (node A)) : Prop :=
  ∀ t nd, h !! t = Some nd →
    ∃ nd', h' !! t = Some nd' ∧ item nd' = item nd ∧
           children nd ⊆ children nd'.

(** [good g n]: an entry for [n] on top of the stack is worked off in
    finitely many iterations, during which every transitive predecessor of
    [n] is recorded in [seen] and hung below the entry's tree node. *)
Definition good `{Countable A} (g : gmap A (list A)) (n : A) : Prop :=
  ∀ (h : list (node A)) t stack (seen : gset A), t < length h →
    ∃ k h' seen',
      (∀ fuel, walk (k + fuel) g (h, (t, n) :: stack, seen) =
               walk fuel g (h', stack, seen')) ∧
      heap_le h h' ∧
      (∀ q, q ∈ seen' ↔ q ∈ seen ∨ tc (edge g) n q) ∧
      (∀ p, tc (edge g) n p → ∃ c, in_tree h' t c ∧ holds h' c p).

(** Executable checks for concrete graphs. *)
Definition graph_closedb `{Countable A} (graph : gmap A (list A)) : bool :=
  forallb (λ '(_, preds),
             forallb (λ p, bool_decide (is_Some (graph !! p))) preds)
          (map_to_list graph).

Definition ranked_byb `{Countable A} (rank : A → nat)
    (graph : gmap A (list A)) : bool :=
  forallb (λ '(n, preds), forallb (λ p, Nat.ltb (rank p) (rank n)) preds)
          (map_to_list graph).

(** Two small graphs: a diamond ([3] after [1] and [2], both after [0]) and
    a node that is its own predecessor. *)
Definition diamond : gmap nat (list nat) :=
  {[ 3 := [1; 2]; 1 := [0]; 2 := [0]; 0 := [] ]}.

Definition self_loop : gmap nat (list nat) := {[ 0 := [0] ]}.

End formatters.

(** ** taskflow/utils/async_utils.py *)

Module async_utils.

(** The states of a [concurrent.futures] future. *)
Inductive future_state : Type :=
| PENDING
| RUNNING
| CANCELLED
| CANCELLED_AND_NOTIFIED
| FINISHED.

Global Instance future_state_eq_dec : EqDecision future_state.
Proof. solve_decision. Defined.

Definition DONE_STATES : list future_state :=
  [CANCELLED_AND_NOTIFIED; FINISHED].

(** A future: its state, the waiters registered on it (references of
    [_Waiter] objects) and whether it is a [GreenFuture]. *)
Record future : Type := Future {
  _state : future_state;
  _waiters : list nat;
  green : bool
}.

(** [waiter.event.wait(timeout)] as an observable event. *)
Inductive event : Type :=
| EventWait (waiter : nat) (timeout : option nat).

(** The object store: the futures by reference, the next fresh waiter
    reference, and the waits performed so far. *)
Record store : Type := Store {
  futures : nat → future;
  next_waiter : nat;
  trace : list event
}.

(** [f._state in DONE_STATES] *)
Definition is_done (h : store) (f : nat) : Prop :=
  _state (futures h f) ∈ DONE_STATES.

Global Instance is_done_dec h f : Decision (is_done h f).
Proof. unfold is_done. apply _. Defined.

Definition in_done_states (h : store) (f : nat) : bool :=
  bool_decide (is_done h f).

(** [_partition_futures(fs)]: one pass, appending to [done] or to
    [not_done]. *)
Definition _partition_futures (fs : list nat) (h : store)
  : list nat * list nat :=
  foldl (λ '(done, not_done) f,
           if in_done_states h f then (done ++ [f], not_done)
           else (done, not_done ++ [f]))
        ([], []) fs.

Definition set_waiters (f : nat) (l : list nat) (h : store) : store :=
  Store (λ g, if decide (g = f)
              then Future (_state (futures h g)) l (green (futures h g))
              else futures h g)
        (next_waiter h) (trace h).

(** [f._waiters.append(waiter)] *)
Definition append_waiter (waiter : nat) (h : store) (f : nat) : store :=
  set_waiters f (_waiters (futures h f) ++ [waiter]) h.

(** [list.remove]: delete the first occurrence, or [ValueError]. *)
Fixpoint remove (x : nat) (l : list nat) : outcome (list nat) :=
  match l with
  | [] => Raise ValueError
  | y :: l' =>
      if decide (y = x) then Ok l'
      else match remove x l' with
           | Ok r => Ok (y :: r)
           | Raise e => Raise e
           end
  end.

(** [for f in fs: f._waiters.remove(waiter)] *)
Fixpoint remove_waiters (waiter : nat) (fs : list nat) (h : store)
  : outcome unit * store :=
  match fs with
  | [] => (Ok tt, h)
  | f :: fs' =>
      match remove waiter (_waiters (futures h f)) with
      | Raise e => (Raise e, h)
      | Ok l => remove_waiters waiter fs' (set_waiters f l h)
      end
  end.

(** What other threads do to the futures while the caller waits. *)
Definition set_states (states : nat → future_state) (h : store) : store :=
  Store (λ g, Future (states g) (_waiters (futures h g)) (green (futures h g)))
        (next_waiter h) (trace h).

(** [wait_for_any(fs, timeout)].  [EVENTLET_AVAILABLE] is the flag of
    [eventlet_utils] that [_Waiter.__init__] asserts for a green waiter.
    [wait h] is the blocking [waiter.event.wait(timeout)]: [None] when it
    never returns, otherwise the states of the futures when it returns
    (because a future completed and set the event, or the timeout passed).
    [_AcquireFutures] only excludes other threads and leaves no trace in
    this sequential model. *)
Definition wait_for_any (EVENTLET_AVAILABLE : bool)
    (wait : store → option (nat → future_state))
    (fs : list nat) (timeout : option nat) (h : store)
  : option (outcome (list nat * list nat) * store) :=
  let '(done, not_done) := _partition_futures fs h in
  match done with
  | _ :: _ => Some (Ok (done, not_done), h)
  | [] =>
      let is_green := existsb (λ f, green (futures h f)) fs in
      if is_green && negb EVENTLET_AVAILABLE
      then Some (Raise AssertionError, h)
      else
        let waiter := next_waiter h in
        let h := Store (futures h) (S waiter) (trace h) in
        let h := foldl (append_waiter waiter) h fs in
        let h :=
          Store (futures h) (next_waiter h)
                (trace h ++ [EventWait waiter timeout]) in
        match wait h with
        | None => None
        | Some states =>
            let h := set_states states h in
            match remove_waiters waiter fs h with
            | (Raise e, h) => Some (Raise e, h)
            | (Ok _, h) => Some (Ok (_partition_futures fs h), h)
            end
        end
  end.

(** Every registered waiter was allocated before. *)
Definition store_wf (h : store) : Prop :=
  ∀ g w, w ∈ _waiters (futures h g) → w < next_waiter h.

(** Number of occurrences of [x] in [l]. *)
Fixpoint occurrences (x : nat) (l : list nat) : nat :=
  match l with
  | [] => 0
  | y :: l' => (if decide (y = x) then 1 else 0) + occurrences x l'
  end.

(** Removing the first [n] occurrences. *)
Fixpoint remove_n (n : nat) (x : nat) (l : list nat) : list nat :=
  match n with
  | 0 => l
  | S n' =>
      match remove x l with
      | Ok l' => remove_n n' x l'
      | Raise _ => l
      end
  end.

(** Three futures: [0] pending with a waiter of another caller, [1]
    running, [2] finished. *)
Definition three_futures : store :=
  Store (λ g, match g with
              | 0 => Future PENDING [0] false
              | 1 => Future RUNNING [] false
              | _ => Future FINISHED [] false
              end) 1 [].

(** An environment in which every future has finished when the wait
    returns, and a call that blocks in it. *)
Definition all_finish (h : store) : option (nat → future_state) :=
  Some (λ _, FINISHED).

Definition blocked_call : option (outcome (list nat * list nat) * store) :=
  wait_for_any true all_finish [0; 1; 0] None three_futures.

Definition store_after (c : option (outcome (list nat * list nat) * store))
  : store :=
  match c with
  | Some (_, h') => h'
  | None => three_futures
  end.

End async_utils.

(** ** taskflow/engines/worker_based/worker.py *)

Module worker.

(** What can stand in the [tasks] list or be a member of a module: a
    string, a module (with its members as [inspect.getmembers] lists them),
    a class (by identity), or an object of any other type. *)
#[local] Unset Elimination Schemes.
Inductive pyobj : Type :=
| PStr (s : string)
| PModule (members : list (string * pyobj))
| PClass (c : nat)
| POther.
#[local] Set Elimination Schemes.

(** [importutils] of the running interpreter: what importing a module or a
    class by name gives. *)
Record importutils : Type := {
  import_module : string → outcome (list (string * pyobj));
  import_class : string → outcome pyobj
}.

(** The imports attempted, in order. *)
Inductive import_event : Type :=
| ImportModule (import_str : string)
| ImportClass (import_str : string).

(** Modelled from the spec: [endpoint.Endpoint] is not among the sources;
    an endpoint wraps the task class it serves. *)
Record Endpoint : Type := { task_cls : nat }.

Global Instance Endpoint_eq_dec : EqDecision Endpoint.
Proof. solve_decision. Defined.

(** [reflection.is_subclass(obj, t_task.BaseTask)]: [obj] is a class and
    derives from [BaseTask]; [is_task] tells which classes do. *)
Definition is_subclass (is_task : nat → bool) (obj : pyobj) : bool :=
  match obj with
  | PClass c => is_task c
  | _ => false
  end.

(** [str.split(sep)] for a one-character separator. *)
Fixpoint split (sep : ascii) (s : string) : list string :=
  match s with
  | EmptyString => [EmptyString]
  | String c s' =>
      if decide (c = sep) then EmptyString :: split sep s'
      else match split sep s' with
           | [] => [String c EmptyString]
           | part :: parts => String c part :: parts
           end
  end.

(** The [for name, obj in inspect.getmembers(module)] loop. *)
Definition derive_tasks (is_task : nat → bool)
    (members : list (string * pyobj)) (derived_tasks : gset nat) : gset nat :=
  foldl (λ derived '(_, obj),
           if is_subclass is_task obj
           then match obj with
                | PClass c => {[c]} ∪ derived
                | _ => derived
                end
           else derived)
        derived_tasks members.

(** The body of the [for item in tasks] loop. *)
Definition derive_item (imp : importutils) (is_task : nat → bool)
    (item : pyobj) (derived_tasks : gset nat) (log : list import_event)
  : outcome (gset nat) * list import_event :=
  match item with
  | PStr s =>
      match split ":"%char s with
      | [pkg; cls] =>
          let import_str := pkg +:+ "." +:+ cls in
          let log := log ++ [ImportClass import_str] in
          match import_class imp import_str with
          | Raise e => (Raise e, log)
          | Ok obj =>
              match obj with
              | PClass c =>
                  if is_task c then (Ok ({[c]} ∪ derived_tasks), log)
                  else (Raise TypeError, log)
              | _ => (Raise TypeError, log)
              end
          end
      | _ =>
          let log := log ++ [ImportModule s] in
          match import_module imp s with
          | Raise e => (Raise e, log)
          | Ok module => (Ok (derive_tasks is_task module derived_tasks), log)
          end
      end
  | PModule module => (Ok (derive_tasks is_task module derived_tasks), log)
  | PClass c =>
      if is_task c then (Ok ({[c]} ∪ derived_tasks), log)
      else (Raise TypeError, log)
  | POther => (Raise TypeError, log)
  end.

Fixpoint derive_items (imp : importutils) (is_task : nat → bool)
    (tasks : list pyobj) (derived_tasks : gset nat) (log : list import_event)
  : outcome (gset nat) * list import_event :=
  match tasks with
  | [] => (Ok derived_tasks, log)
  | item :: tasks' =>
      match derive_item imp is_task item derived_tasks log with
      | (Raise e, log') => (Raise e, log')
      | (Ok derived_tasks', log') =>
          derive_items imp is_task tasks' derived_tasks' log'
      end
  end.

(** [Worker._derive_endpoints(tasks)] *)
Definition _derive_endpoints (imp : importutils) (is_task : nat → bool)
    (tasks : list pyobj) : outcome (list Endpoint) * list import_event :=
  match derive_items imp is_task tasks ∅ [] with
  | (Raise e, log) => (Raise e, log)
  | (Ok derived_tasks, log) =>
      (Ok ((λ task, {| task_cls := task |}) <$> elements derived_tasks), log)
  end.

(** *** The rules of the docstring, item by item *)

Fixpoint count_colons (s : string) : nat :=
  match s with
  | EmptyString => 0
  | String c s' => (if decide (c = ":"%char) then 1 else 0) + count_colons s'
  end.

(** [s] with every [':'] turned into ['.']. *)
Fixpoint dotted (s : string) : string :=
  match s with
  | EmptyString => EmptyString
  | String c s' =>
      String (if decide (c = ":"%char) then "."%char else c) (dotted s')
  end.

(** [c] is a member of the module that derives from [BaseTask]. *)
Definition task_member (is_task : nat → bool)
    (members : list (string * pyobj)) (c : nat) : Prop :=
  is_task c = true ∧ ∃ name, (name, PClass c) ∈ members.

(** The task classes an item stands for. *)
Definition yields (imp : importutils) (is_task : nat → bool)
    (item : pyobj) (c : nat) : Prop :=
  match item with
  | PStr s =>
      if decide (count_colons s = 1)
      then import_class imp (dotted s) = Ok (PClass c) ∧ is_task c = true
      else ∃ module, import_module imp s = Ok module ∧
                     task_member is_task module c
  | PModule module => task_member is_task module c
  | PClass c' => c' = c ∧ is_task c = true
  | POther => False
  end.

(** The exception an item is refused with, if it is. *)
Definition item_error (imp : importutils) (is_task : nat → bool)
    (item : pyobj) : option exn :=
  match item with
  | PStr s =>
      if decide (count_colons s = 1)
      then match import_class imp (dotted s) with
           | Raise e => Some e
           | Ok obj => if is_subclass is_task obj then None else Some TypeError
           end
      else match import_module imp s with
           | Raise e => Some e
           | Ok _ => None
           end
  | PModule _ => None
  | PClass c => if is_task c then None else Some TypeError
  | POther => Some TypeError
  end.

(** The imports an item causes. *)
Definition item_imports (item : pyobj) : list import_event :=
  match item with
  | PStr s =>
      if decide (count_colons s = 1) then [ImportClass (dotted s)]
      else [ImportModule s]
  | _ => []
  end.

(** The rule as first stated: any string with a [':'] is imported as a
    class. *)
Definition colon_means_class : Prop :=
  ∀ imp is_task s,
    0 < count_colons s →
    ∃ import_str,
      (_derive_endpoints imp is_task [PStr s]).2 = [ImportClass import_str].

(** An interpreter in which a module named ["a:b:c"] exists and holds the
    task class [7], and no class can be imported by name. *)
Definition odd_importer : importutils :=
  {| import_module := λ s,
       if decide (s = "a:b:c") then Ok [("T", PClass 7)]
       else Raise ImportError;
     import_class := λ _, Raise ImportError |}.

(** An interpreter with a module ["m"] holding the task classes [1] and
    [2], a non-task class and a constant, and the class ["m.T1"]. *)
Definition small_importer : importutils :=
  {| import_module := λ s,
       if decide (s = "m")
       then Ok [("K", POther); ("T1", PClass 1); ("T2", PClass 2);
                ("U", PClass 9)]
       else Raise ImportError;
     import_class := λ s,
       if decide (s = "m.T1") then Ok (PClass 1) else Raise ImportError |}.

Definition small_is_task (c : nat) : bool := bool_decide (c < 5).

End worker.

(** ** taskflow/utils/async_utils.py: the waiter and the wait *)

Module async_utils_waiter.
Import async_utils.

(** The store [wait_for_any] hands to [waiter.event.wait]: the waiter
    allocated, appended to every future of [fs], and the wait recorded. *)
Definition store_at_wait (fs : list nat) (timeout : option nat) (h : store)
  : store :=
  let waiter := next_waiter h in
  let h := Store (futures h) (S waiter) (trace h) in
  let h := foldl (append_waiter waiter) h fs in
  Store (futures h) (next_waiter h) (trace h ++ [EventWait waiter timeout]).

(** [_Waiter]: each waiter owns one event; [events w] is the flag of the
    event of waiter [w].  [add_result], [add_exception] and
    [add_cancelled] all do [self.event.set()]. *)
Definition event_set (waiter : nat) (events : nat → bool) : nat → bool :=
  λ w, if decide (w = waiter) then true else events w.

Definition add_result (waiter : nat) (future : nat) (events : nat → bool)
  : nat → bool := event_set waiter events.

Definition add_exception (waiter : nat) (future : nat) (events : nat → bool)
  : nat → bool := event_set waiter events.

Definition add_cancelled (waiter : nat) (future : nat) (events : nat → bool)
  : nat → bool := event_set waiter events.

(** The three methods of [_Waiter].  Their caller is [concurrent.futures],
    which is not part of the repository: when it has something to tell
    about a future it calls one of them on every waiter of
    [future._waiters], in order.  Only those calls are modelled; what the
    library does to the state of the future is not. *)
Inductive waiter_method : Type :=
| Add_result
| Add_exception
| Add_cancelled.

Definition call_method (m : waiter_method) (waiter future : nat)
    (events : nat → bool) : nat → bool :=
  match m with
  | Add_result => add_result waiter future events
  | Add_exception => add_exception waiter future events
  | Add_cancelled => add_cancelled waiter future events
  end.

Definition tell_waiters (m : waiter_method) (f : nat) (h : store)
    (events : nat → bool) : nat → bool :=
  foldl (λ ev waiter, call_method m waiter f ev) events
        (_waiters (futures h f)).

End async_utils_waiter.

Module async_utils_examples.
Import async_utils.

(** A green future that is pending, beside finished ones. *)
Definition green_pending : store :=
  Store (λ g, match g with
              | 0 => Future PENDING [] true
              | _ => Future FINISHED [] false
              end) 0 [].

End async_utils_examples.

Module formatters_examples.
Import formatters.

(** A storage none of whose reads succeeds. *)
Definition storage_down : storage :=
  Storage (λ _, Raise NotFound) (λ _, Raise StorageFailure)
          (λ _ _ _, Raise NotFound) (λ _, Raise StorageFailure).

(** The four storage calls [_format_node] can make for an atom, in the
    order of the code. *)
Definition node_calls (atom_name : string) : list call :=
  [Call_get_atom_intention atom_name; Call_get_atom_state atom_name;
   Call_fetch_mapped_args atom_name; Call_get_execute_result atom_name].

(** [cache[cache_key][atom_name]], when both lookups succeed. *)
Definition cached_entry (cache : cache_t) (cache_key atom_name : string)
  : option (pyval * bool) :=
  cache !! cache_key ≫= (λ bucket, bucket !! atom_name).

End formatters_examples.

Module formatters_examples2.
Import formatters.

(** The atom ['bye'] formatted once, with nothing hidden, on a fresh
    cache. *)
Definition no_hide : FailureFormatter := {| _hide_inputs_outputs_of := [] |}.

Definition formatted_once : outcome string * (cache_t * list call) :=
  _format_node show_keys no_hide storage_a bye_node (fresh_cache, []).

End formatters_examples2.

Module formatters_examples3.
Import formatters.

(** A read that fails the way [_cached_get] absorbs. *)
Definition read_fails (r : outcome pyval) : Prop :=
  r = Raise StorageFailure ∨ r = Raise NotFound.

(** The four buckets exist and hold nothing for the atom. *)
Definition nothing_cached (cache : cache_t) (atom_name : string) : Prop :=
  Forall (λ ck, is_Some (cache !! ck) ∧
                cache !! ck ≫= (λ bucket, bucket !! atom_name) = None)
         ["intentions"; "states"; "requires"; "provides"].

End formatters_examples3.

Module formatters_tree.
Import formatters.

(** What the walk keeps true of its store, stack and [seen]: the store is
    not empty; a stack entry pairs a node with its item; a child carries a
    direct predecessor of its parent's item; children are nodes of the
    store other than the root; every node hangs below the root; and every
    atom in [seen] is the item of a node other than the root. *)
Definition tree_inv `{Countable A} (g : gmap A (list A))
    (h : list (node A)) (stack : list (nat * A)) (seen : gset A) : Prop :=
  0 < length h ∧
  Forall (λ e, holds h e.1 e.2) stack ∧
  (∀ t c x y, child_of h t c → holds h t x → holds h c y → edge g x y) ∧
  (∀ t c, child_of h t c → 0 < c < length h) ∧
  (∀ c, c < length h → in_tree h 0 c) ∧
  (∀ q, q ∈ seen → q ∈ drop 1 (item <$> h)).

End formatters_tree.

(** ** taskflow/test.py: matchers and mock helpers *)

Module test_matchers.

(** A matcher of [testtools] returns [None] for a match and a [Mismatch]
    otherwise; [assertThat] raises for a mismatch. *)
Inductive mismatch : Type := Mismatch (description : string).

Definition assertThat {A} (matchee : A) (matcher : A → option mismatch)
  : outcome unit :=
  match matcher matchee with
  | None => Ok tt
  | Some _ => Raise AssertionError
  end.

(** [FailureRegexpMatcher(exc_class, pattern).match(failure)].  [check
    cause exc_class] is [cause.check(exc_class) is not None], [regex
    pattern text] is [matchers.MatchesRegex(pattern).match(text)], and
    [failure_str] the text of the failure in the final message; the
    failure is iterated cause by cause. *)
Fixpoint match_causes (check : failure → string → bool)
    (regex : string → string → option mismatch)
    (exc_class pattern failure_str : string) (causes : list failure)
  : option mismatch :=
  match causes with
  | [] =>
      Some (Mismatch ("The `" +:+ failure_str +:+ "` wasn't caused by the `"
                      +:+ exc_class +:+ "`"))
  | cause :: causes' =>
      if check cause exc_class then regex pattern (exception_str cause)
      else match_causes check regex exc_class pattern failure_str causes'
  end.

Definition FailureRegexpMatcher_match (check : failure → string → bool)
    (regex : string → string → option mismatch)
    (exc_class pattern failure_str : string) (failure : list failure)
  : option mismatch :=
  match_causes check regex exc_class pattern failure_str failure.

(** [assertFailuresRegexp(exc_class, pattern, callable_obj, ...)].
    [wrapped_call] is what running the callable under
    [utils.wrap_all_failures()] gives: it returns, or raises. *)
Definition assertFailuresRegexp (check : failure → string → bool)
    (regex : string → string → option mismatch)
    (exc_class pattern failure_str : string) (wrapped_call : outcome unit)
  : outcome unit :=
  match wrapped_call with
  | Ok _ => Ok tt
  | Raise (WrappedFailure causes) =>
      assertThat causes
        (FailureRegexpMatcher_match check regex exc_class pattern failure_str)
  | Raise e => Raise e
  end.

(** [str.lower] is Python's and is passed in as [str_lower].  What is
    known of it without its code is how it acts on text of ASCII
    characters: the letters [A] to [Z] become [a] to [z] and every other
    character stays ([lowers_ascii]). *)
Definition is_upper (c : ascii) : bool :=
  (65 <=? nat_of_ascii c) && (nat_of_ascii c <=? 90).

Definition lower_char (c : ascii) : ascii :=
  if is_upper c then ascii_of_nat (nat_of_ascii c + 32) else c.

Fixpoint ascii_lower (s : string) : string :=
  match s with
  | EmptyString => EmptyString
  | String c s' => String (lower_char c) (ascii_lower s')
  end.

Fixpoint is_ascii (s : string) : bool :=
  match s with
  | EmptyString => true
  | String c s' => (nat_of_ascii c <? 128) && is_ascii s'
  end.

Definition lowers_ascii (str_lower : string → string) : Prop :=
  ∀ s, is_ascii s = true → str_lower s = ascii_lower s.

Fixpoint has_upper (s : string) : bool :=
  match s with
  | EmptyString => false
  | String c s' => is_upper c || has_upper s'
  end.

(** The names under which [MockTestCase._patch_class] attaches the class
    mock and the instance mock to the master mock. *)
Definition attach_names (str_lower : string → string) (name : string)
    (attach_as : option string) : string * string :=
  match attach_as with
  | None =>
      let attach_class_as := name in
      let attach_instance_as := str_lower name in
      (attach_class_as, attach_instance_as)
  | Some attach_as =>
      let attach_class_as := attach_as +:+ "_class" in
      let attach_instance_as := attach_as in
      (attach_class_as, attach_instance_as)
  end.

(** A check by type name and a pattern that is matched as a prefix, for
    examples. *)
Definition check_by_name (cause : failure) (exc_class : string) : bool :=
  bool_decide (exception_type cause = exc_class).

Definition regex_prefix (pattern text : string) : option mismatch :=
  if String.prefix pattern text then None
  else Some (Mismatch (text +:+ " does not match " +:+ pattern)).

End test_matchers.

(** ** taskflow/formatters.py: [FailureFormatter.format] *)

Module formatters_format.
Import formatters.

Global Instance atom_eq_dec : EqDecision atom.
Proof. solve_decision. Defined.

Global Instance atom_countable : Countable atom :=
  inj_countable' (λ a, (name a, rebind a, optional a))
                 (λ '(n, r, o), Atom n r o)
                 (λ a, match a with Atom _ _ _ => eq_refl end).

(** What [format] reads of the failure: [fail.exc_info] (the triple, as
    one opaque value, or [None]) and [fail.pformat(traceback=True)]. *)
Record failure_info : Type := {
  exc_info : option string;
  pformat_traceback : string
}.

(** Modelled from the spec: [misc.StringIO] is not among the sources; the
    buffer is the text written so far, [write] appends to it and
    [write_nl] appends the value and then the line separator. *)
Definition write (buff value : string) : string := buff +:+ value.

Definition write_nl (linesep buff value : string) : string :=
  buff +:+ value +:+ linesep.

(** [sum(c for (_n, c) in graph.in_degree_iter([atom]))]: the number of
    predecessors, and nothing for a node the graph does not have. *)
Definition in_degree (graph : gmap atom (list atom)) (a : atom) : nat :=
  match graph !! a with
  | Some preds => length preds
  | None => 0
  end.

(** [atom_intention in self._BUILDERS], whose only key is
    [states.EXECUTE], a string constant of a module that is not among the
    sources and is passed in as [EXECUTE].  The membership test hashes the
    value, and a dictionary is not hashable. *)
Definition in_BUILDERS (EXECUTE : string) (atom_intention : pyval)
  : outcome bool :=
  match atom_intention with
  | VStr s => Ok (bool_decide (s = EXECUTE))
  | VDict _ => Raise TypeError
  | _ => Ok false
  end.

(** The [for i, child in enumerate(rooted_tree, 1)] loop.  [pformat] is
    [Node.pformat] of the tree type, which is not among the sources: given
    the node formatter, the starting prefix, the store and a node it
    returns the text of the subtree, calling the formatter as it goes. *)
Fixpoint write_children
    (pformat : (node atom → fmt string) → string → list (node atom) → nat →
               fmt string)
    (formatter : node atom → fmt string) (linesep : string)
    (h : list (node atom)) (child_count i : nat) (children : list nat)
    (buff : string) : fmt string :=
  match children with
  | [] => fmt_ret buff
  | child :: children' =>
      fmt_bind (pformat formatter "  " h child)
        (λ text,
           let buff :=
             if decide (i = child_count) then write buff text
             else write_nl linesep buff text in
           write_children pformat formatter linesep h child_count (S i)
             children' buff)
  end.

(** [FailureFormatter.format(fail, atom_matcher)].  [storage] and
    [compilation] are the engine's (either may be [None]; of the
    compilation the execution graph is kept); [atom_node] is the result of
    [hierarchy.find_first_match(atom_matcher)].  The result is the pair
    the method returns and the storage calls made; [None] when the fuel of
    the tree builder runs out.  The condition
    [atom is not None and priors and atom_intention in self._BUILDERS]
    tests the membership only when [priors] is not zero. *)
Definition format (EXECUTE : string)
    (str_dict : list (string * pyval) → string)
    (linesep : string)
    (pformat : (node atom → fmt string) → string → list (node atom) → nat →
               fmt string)
    (fuel : nat) (self : FailureFormatter)
    (storage : option storage)
    (compilation : option (gmap atom (list atom)))
    (atom_node : option (node atom))
    (fail : failure_info) (log : list call)
  : option (outcome (option string * string) * list call) :=
  let buff := "" in
  let buff :=
    match exc_info fail with
    | None => write_nl linesep buff (pformat_traceback fail)
    | Some _ => buff
    end in
  match storage, compilation with
  | Some storage, Some graph =>
      match atom_node with
      | None => Some (Ok (exc_info fail, buff), log)
      | Some atom_node =>
          let atom := item atom_node in
          match storage_call (Call_get_atom_intention (name atom))
                  (get_atom_intention storage (name atom)) log with
          | (Raise e, log) => Some (Raise e, log)
          | (Ok atom_intention, log) =>
              let priors := in_degree graph atom in
              if priors =? 0 then Some (Ok (exc_info fail, buff), log)
              else
                match in_BUILDERS EXECUTE atom_intention with
                | Raise e => Some (Raise e, log)
                | Ok false => Some (Ok (exc_info fail, buff), log)
                | Ok true =>
                    let cache := fresh_cache in
                    match _fetch_predecessor_tree fuel graph atom with
                    | None => None
                    | Some (Raise e) => Some (Raise e, log)
                    | Some (Ok (count, rooted_tree, h)) =>
                        let buff :=
                          write_nl linesep buff
                            (pretty count +:+
                             " predecessors (most recent atoms first):") in
                        let formatter := _format_node str_dict self storage in
                        let children :=
                          default [] (children <$> h !! rooted_tree) in
                        let child_count := length children in
                        match write_children pformat formatter linesep h
                                child_count 1 children buff (cache, log) with
                        | (Raise e, (_, log)) => Some (Raise e, log)
                        | (Ok buff, (_, log)) =>
                            Some (Ok (exc_info fail, buff), log)
                        end
                    end
                end
          end
      end
  | _, _ => Some (Ok (exc_info fail, buff), log)
  end.

(** The text written before anything about atoms. *)
Definition traceback_text (linesep : string) (fail : failure_info) : string :=
  match exc_info fail with
  | None => pformat_traceback fail +:+ linesep
  | Some _ => ""
  end.

(** A subtree formatter that formats the node itself and no more. *)
Definition pformat_node (formatter : node atom → fmt string)
    (prefix : string) (h : list (node atom)) (c : nat) : fmt string :=
  match h !! c with
  | Some nd => fmt_bind (formatter nd) (λ text, fmt_ret (prefix +:+ text))
  | None => fmt_ret prefix
  end.

(** Three atoms in a line, [a0] before [a1] before [a2]. *)
Definition a0 : atom := Atom "a0" [] [].
Definition a1 : atom := Atom "a1" [] [].
Definition a2 : atom := Atom "a2" [] [].

Definition line_graph : gmap atom (list atom) :=
  {[ a2 := [a1]; a1 := [a0]; a0 := [] ]}.

Definition remote_failure : failure_info :=
  {| exc_info := None; pformat_traceback := "Traceback" |}.

End formatters_format.

(** * Theorems *)

Module test_proofs.
Import test.

Lemma index_Ok {A} `{EqDecision A} (x : A) l i :
  index x l = Ok i →
  ∃ l1 l2, l = l1 ++ (x :: l2) ∧ (x ∉ l1) ∧ length l1 = i.
Proof.
  revert i. induction l as [|y l IH]; intros i; simpl; [done|].
  destruct (decide (y = x)) as [->|Hne].
  - intros [= <-]. exists [], l. split_and!; [done| |done].
    apply not_elem_of_nil.
  - destruct (index x l) as [j|e] eqn:Hj; [|done].
    intros [= <-]. destruct (IH j eq_refl) as (l1 & l2 & -> & Hnin & Hlen).
    exists (y :: l1), l2. split_and!; [done| |by simpl; f_equal].
    rewrite elem_of_cons. intros [?|?]; [by subst|done].
Qed.

Lemma index_Raise {A} `{EqDecision A} (x : A) l e :
  index x l = Raise e → e = ValueError ∧ x ∉ l.
Proof.
  induction l as [|y l IH]; simpl.
  - intros [= <-]. split; [done|apply not_elem_of_nil].
  - destruct (decide (y = x)) as [->|Hne]; [done|].
    destruct (index x l) as [j|e'] eqn:Hj; [done|].
    intros [= <-]. destruct (IH eq_refl) as [-> Hnin].
    split; [done|]. rewrite elem_of_cons. intros [?|?]; [by subst|done].
Qed.

Lemma drop_past_prefix {A} (x : A) l1 l2 :
  drop (length l1 + 1) (l1 ++ x :: l2) = l2.
Proof. by rewrite <-drop_drop, drop_app_length. Qed.

Lemma sublist_skip_absent {A} (x : A) l l1 l2 :
  x ∉ l1 → sublist (x :: l) (l1 ++ l2) → sublist (x :: l) l2.
Proof.
  induction l1 as [|y l1 IH]; simpl; [done|].
  intros Hnin Hsub. apply not_elem_of_cons in Hnin as [Hne Hnin].
  inversion Hsub; subst; [done|]. by apply IH.
Qed.

Lemma subsequence_loop_sound {A} `{EqDecision A} (tail sub : list A) :
  subsequence_loop tail sub = Ok tt → sublist sub tail.
Proof.
  revert tail. induction sub as [|x sub IH]; intros tail; simpl.
  - intros _. apply sublist_nil_l.
  - destruct (index x tail) as [i|e] eqn:Hi.
    + apply index_Ok in Hi as (l1 & l2 & -> & _ & <-).
      rewrite drop_past_prefix. intros Hloop.
      apply sublist_inserts_l, sublist_skip. by apply IH.
    + by destruct e.
Qed.

Lemma subsequence_loop_complete {A} `{EqDecision A} (tail sub : list A) :
  sublist sub tail → subsequence_loop tail sub = Ok tt.
Proof.
  revert tail. induction sub as [|x sub IH]; intros tail Hsub; simpl; [done|].
  destruct (index x tail) as [i|e] eqn:Hi.
  - apply index_Ok in Hi as (l1 & l2 & -> & Hnin & <-).
    rewrite drop_past_prefix. apply IH.
    apply sublist_skip_absent in Hsub; [|done].
    inversion Hsub; subst; [done|].
    etrans; [apply sublist_cons; reflexivity|eassumption].
  - apply index_Raise in Hi as [_ Hnin]. destruct Hnin.
    eapply elem_of_sublist; [|done]. apply elem_of_cons. by left.
Qed.

(** C10: [assertIsSuperAndSubsequence super_seq sub_seq] returns without
    raising exactly when [sub_seq] is a (not necessarily contiguous)
    subsequence of [super_seq]; the greedy choice of the earliest occurrence
    in the remaining tail loses no embedding. *)
Theorem assertIsSuperAndSubsequence_iff_sublist {A} `{EqDecision A}
    (super_seq sub_seq : list A) :
  assertIsSuperAndSubsequence super_seq sub_seq = Ok tt ↔
  sublist sub_seq super_seq.
Proof.
  unfold assertIsSuperAndSubsequence. split.
  - apply subsequence_loop_sound.
  - apply subsequence_loop_complete.
Qed.

End test_proofs.

Module formatters_proofs.
Import formatters.

(** A hit: the cached pair is returned, nothing is fetched, nothing
    changes. *)
Lemma cached_get_hit {W} (cache : cache_t) ck an
    (fetch : W → outcome pyval * W) w r :
  cache !! ck ≫= (λ bucket, bucket !! an) = Some r →
  _cached_get cache ck an fetch w = (Ok r, cache, w).
Proof. unfold _cached_get. intros ->. by destruct r. Qed.

(** Whatever a successful call returns is what the cache holds after it. *)
Lemma cached_get_stores {W} (cache : cache_t) ck an
    (fetch : W → outcome pyval * W) w r cache' w' :
  _cached_get cache ck an fetch w = (Ok r, cache', w') →
  cache' !! ck ≫= (λ bucket, bucket !! an) = Some r.
Proof.
  unfold _cached_get.
  destruct (cache !! ck ≫= _) as [[v f]|] eqn:Hhit.
  { intros [= <- <- <-]. done. }
  assert (∀ v f w0,
    match cache !! ck with
    | Some bucket =>
        (Ok (v, f), <[ck := <[an := (v, f)]> bucket]> cache, w0)
    | None => (Raise KeyError, cache, w0)
    end = (Ok r, cache', w') →
    cache' !! ck ≫= (λ bucket, bucket !! an) = Some r) as Hstore.
  { intros v f w0. destruct (cache !! ck) as [bucket|]; [|done].
    intros [= <- <- <-]. rewrite lookup_insert_eq. simpl.
    by rewrite lookup_insert_eq. }
  destruct (fetch w) as [[v|e] w0]; [by apply Hstore|].
  destruct e; try done; by apply Hstore.
Qed.

(** C2: on a cache miss in an existing bucket, a fetch function that raises
    [StorageFailure] or [NotFound] makes [_cached_get] return
    [(None, False)] (and cache it) instead of raising; an exception of any
    other type propagates to the caller. *)
Theorem cached_get_read_failure_is_not_found {W} (cache : cache_t) ck an
    (fetch : W → outcome pyval * W) w w' e bucket :
  cache !! ck = Some bucket →
  bucket !! an = None →
  fetch w = (Raise e, w') →
  (e = StorageFailure ∨ e = NotFound →
   _cached_get cache ck an fetch w =
     (Ok (VNone, false),
      <[ck := <[an := (VNone, false)]> bucket]> cache, w')) ∧
  (e ≠ StorageFailure → e ≠ NotFound →
   _cached_get cache ck an fetch w = (Raise e, cache, w')).
Proof.
  intros Hck Han Hf. unfold _cached_get. rewrite Hck. simpl.
  rewrite Han, Hf. split.
  - by intros [-> | ->].
  - intros H1 H2. by destruct e.
Qed.

Lemma cached_get_read_failure_witness :
  _cached_get (W := unit) {["states" := ∅]} "states" "bye"
    (λ w, (Raise StorageFailure, w)) tt =
  (Ok (VNone, false),
   <["states" := <["bye" := (VNone, false)]> ∅]> {["states" := ∅]}, tt).
Proof.
  apply (cached_get_read_failure_is_not_found (W := unit)
           {["states" := ∅]} "states" "bye"
           (λ w, (Raise StorageFailure, w)) tt tt StorageFailure ∅).
  - reflexivity.
  - reflexivity.
  - reflexivity.
  - left. reflexivity.
Defined.



(** A cached storage read records at most the one call it wraps. *)
Lemma cached_storage_call_log ck an c r (cache : cache_t) log :
  ∃ r' cache' calls,
    cached ck an (storage_call c r) (cache, log) = (r', (cache', log ++ calls)) ∧
    (calls = [] ∨ calls = [c]).
Proof.
  unfold cached, _cached_get, storage_call.
  destruct (cache !! ck ≫= _) as [[v f]|].
  { eexists _, _, []. rewrite app_nil_r. eauto. }
  assert (∀ v f, ∃ r' cache',
    (let '(r0, c0, l0) :=
       match cache !! ck with
       | Some bucket =>
           (Ok (v, f), <[ck := <[an := (v, f)]> bucket]> cache, log ++ [c])
       | None => (Raise KeyError, cache, log ++ [c])
       end in (r0, (c0, l0))) = (r', (cache', log ++ [c]))) as Hstore.
  { intros v f. destruct (cache !! ck); eauto. }
  destruct r as [v|e].
  { destruct (Hstore v true) as (r' & cache' & ->). eauto 6. }
  destruct e;
    try (destruct (Hstore VNone false) as (r' & cache' & ->)); eauto 6.
Qed.

(** C9: for an atom listed in [hide_inputs_outputs_of], [_format_node]
    puts no ['requires'] and no ['provides'] entry among the formatted
    attributes and makes no [fetch_mapped_args] or [get_execute_result]
    call; so two storages that agree on the atom's intention and state, and
    differ at will in stored inputs and outputs, give the same formatted
    text, cache and call log. *)
Theorem format_node_hides_inputs_outputs str_dict self st1 st2 nd
    (cache : cache_t) log :
  name (item nd) ∈ _hide_inputs_outputs_of self →
  get_atom_intention st1 (name (item nd)) =
    get_atom_intention st2 (name (item nd)) →
  get_atom_state st1 (name (item nd)) = get_atom_state st2 (name (item nd)) →
  (∃ r cache' calls,
     _format_node_attrs self st1 nd (cache, log) =
       (r, (cache', log ++ calls)) ∧
     Forall (λ c, is_io_call c = false) calls ∧
     (∀ attrs, r = Ok attrs →
        ("requires" ∉ attrs.*1) ∧ ("provides" ∉ attrs.*1))) ∧
  _format_node str_dict self st1 nd (cache, log) =
    _format_node str_dict self st2 nd (cache, log).
Proof.
  intros Hhide Hint Hst. split.
  - unfold _format_node_attrs, fmt_bind.
    destruct (cached_storage_call_log "intentions" (name (item nd))
                (Call_get_atom_intention (name (item nd)))
                (get_atom_intention st1 (name (item nd))) cache log)
      as (r1 & cache1 & calls1 & -> & Hcalls1).
    assert (Forall (λ c, is_io_call c = false) calls1) as Hio1.
    { destruct Hcalls1 as [-> | ->]; repeat constructor. }
    destruct r1 as [[intention intention_found]|e].
    2:{ exists (Raise e), cache1, calls1. split_and!; [done|done|done]. }
    destruct (cached_storage_call_log "states" (name (item nd))
                (Call_get_atom_state (name (item nd)))
                (get_atom_state st1 (name (item nd))) cache1 (log ++ calls1))
      as (r2 & cache2 & calls2 & -> & Hcalls2).
    assert (Forall (λ c, is_io_call c = false) calls2) as Hio2.
    { destruct Hcalls2 as [-> | ->]; repeat constructor. }
    rewrite <-(assoc_L (++)).
    destruct r2 as [[state state_found]|e].
    2:{ exists (Raise e), cache2, (calls1 ++ calls2).
        split_and!; [done|by apply Forall_app|done]. }
    rewrite decide_True by done. unfold fmt_ret.
    eexists _, cache2, (calls1 ++ calls2).
    split_and!; [done|by apply Forall_app|].
    intros attrs [= <-].
    destruct intention_found, state_found; simpl;
      rewrite ?elem_of_cons, ?elem_of_nil; split; intros Hin;
      repeat (destruct Hin as [Hin|Hin]); done.
  - unfold _format_node, _format_node_attrs, fmt_bind.
    rewrite Hint, Hst.
    destruct (cached "intentions" _ _ _) as [[[intention intention_found]|e] s1];
      [|done].
    destruct (cached "states" _ _ _) as [[[state state_found]|e] s2]; [|done].
    by destruct (decide (name (item nd) ∈ _hide_inputs_outputs_of self)).
Qed.

Lemma format_node_hides_inputs_outputs_witness :
  _format_node show_keys hide_bye storage_a bye_node (fresh_cache, []) =
  _format_node show_keys hide_bye storage_b bye_node (fresh_cache, []).
Proof.
  refine (proj2 (format_node_hides_inputs_outputs show_keys hide_bye
                   storage_a storage_b bye_node fresh_cache [] _ _ _)).
  - simpl. constructor.
  - reflexivity.
  - reflexivity.
Defined.

(** What the hidden atom is formatted as, against an atom that is not
    hidden. *)
Example format_node_hidden :
  fst (_format_node show_keys hide_bye storage_a bye_node (fresh_cache, [])) =
    Ok "Atom 'bye' intention state " ∧
  fst (_format_node show_keys {| _hide_inputs_outputs_of := [] |}
         storage_a bye_node (fresh_cache, [])) =
    Ok "Atom 'bye' intention state requires provides ".
Proof. split; vm_compute; reflexivity. Qed.

Section predecessor_tree.
Context `{Countable A}.
Implicit Types (g : gmap A (list A)) (h : list (node A)) (seen : gset A).

Lemma graph_closedb_correct g : graph_closedb g = true → graph_closed g.
Proof.
  unfold graph_closedb. rewrite forallb_forall.
  intros Hall n p (preds & Hn & Hp).
  specialize (Hall (n, preds)). simpl in Hall.
  rewrite forallb_forall in Hall.
  eapply bool_decide_eq_true_1, Hall; [|by apply list_elem_of_In].
  by apply list_elem_of_In, elem_of_map_to_list.
Qed.

Lemma ranked_acyclic (rank : A → nat) g :
  ranked_byb rank g = true → acyclic g.
Proof.
  unfold ranked_byb. rewrite forallb_forall. intros Hall.
  assert (∀ n p, edge g n p → rank p < rank n) as Hedge.
  { intros n p (preds & Hn & Hp).
    specialize (Hall (n, preds)). simpl in Hall.
    rewrite forallb_forall in Hall.
    apply Nat.ltb_lt, Hall; [|by apply list_elem_of_In].
    by apply list_elem_of_In, elem_of_map_to_list. }
  assert (∀ n p, tc (edge g) n p → rank p < rank n) as Htc.
  { induction 1 as [n p Hnp|n q p Hnq _ IH]; [by apply Hedge|].
    apply Hedge in Hnq. lia. }
  intros n Hn. apply Htc in Hn. lia.
Qed.


(** *** The store during the walk *)

Lemma heap_le_refl h : heap_le h h.
Proof. intros t nd Ht. eauto. Qed.

Lemma heap_le_trans h1 h2 h3 : heap_le h1 h2 → heap_le h2 h3 → heap_le h1 h3.
Proof.
  intros H12 H23 t nd Ht.
  destruct (H12 t nd Ht) as (nd2 & Ht2 & Hi2 & Hc2).
  destruct (H23 t nd2 Ht2) as (nd3 & Ht3 & Hi3 & Hc3).
  exists nd3. split_and!; [done|congruence|by etrans].
Qed.

Lemma heap_le_valid h h' t : heap_le h h' → t < length h → t < length h'.
Proof.
  intros Hle Ht. apply lookup_lt_is_Some_2 in Ht as [nd Hnd].
  destruct (Hle t nd Hnd) as (nd' & Hnd' & _). by eapply lookup_lt_Some.
Qed.

Lemma holds_mono h h' c x : heap_le h h' → holds h c x → holds h' c x.
Proof.
  intros Hle (nd & Hnd & Hx).
  destruct (Hle c nd Hnd) as (nd' & Hnd' & Hi & _).
  exists nd'. split; [done|congruence].
Qed.

Lemma child_of_mono h h' t c : heap_le h h' → child_of h t c → child_of h' t c.
Proof.
  intros Hle (nd & Hnd & Hc).
  destruct (Hle t nd Hnd) as (nd' & Hnd' & _ & Hsub).
  exists nd'. split; [done|by apply Hsub].
Qed.

Lemma in_tree_mono h h' r c : heap_le h h' → in_tree h r c → in_tree h' r c.
Proof.
  intros Hle. induction 1 as [|t c _ IH Hc]; [constructor|].
  eapply in_tree_child; [done|by eapply child_of_mono].
Qed.

Lemma in_tree_trans h r t c : in_tree h r t → in_tree h t c → in_tree h r c.
Proof.
  intros Hrt. induction 1 as [|t' c _ IH Hc]; [done|].
  by eapply in_tree_child.
Qed.

(** Allocating a child and adding it to [t]. *)
Lemma add_child_heap_le h t (p : A) :
  heap_le h (add t (length h) (h ++ [Node p []])).
Proof.
  intros t0 nd Ht0. unfold add.
  destruct (decide (t = t0)) as [->|Hne].
  - rewrite list_lookup_alter_eq, (lookup_app_l_Some _ _ _ _ Ht0). simpl.
    eexists. split_and!; [done|done|]. simpl.
    intros x Hx. apply elem_of_app. by left.
  - rewrite list_lookup_alter_ne by done.
    rewrite (lookup_app_l_Some _ _ _ _ Ht0). eauto.
Qed.

Lemma add_child_holds h t (p : A) :
  t < length h → holds (add t (length h) (h ++ [Node p []])) (length h) p.
Proof.
  intros Ht. exists (Node p []). split; [|done]. unfold add.
  rewrite list_lookup_alter_ne by lia. by rewrite list_lookup_middle.
Qed.

Lemma add_child_child_of h t (p : A) :
  t < length h → child_of (add t (length h) (h ++ [Node p []])) t (length h).
Proof.
  intros Ht. apply lookup_lt_is_Some_2 in Ht as [nd Hnd]. unfold add.
  eexists. rewrite list_lookup_alter_eq, (lookup_app_l_Some _ _ _ _ Hnd).
  split; [done|]. simpl. apply elem_of_app. right. by apply list_elem_of_singleton.
Qed.

(** The inner loop pushes one entry per predecessor, each a fresh child of
    [t] carrying that predecessor. *)
Lemma foldl_visit_pred t preds : ∀ h stack seen,
  t < length h →
  ∃ h1 es,
    foldl (visit_pred t) (h, stack, seen) preds =
      (h1, es ++ stack, list_to_set preds ∪ seen) ∧
    heap_le h h1 ∧
    Forall (λ e, e.2 ∈ preds ∧ holds h1 e.1 e.2 ∧ child_of h1 t e.1) es ∧
    (∀ p, p ∈ preds → ∃ c, (c, p) ∈ es).
Proof.
  induction preds as [|p ps IH]; intros h stack seen Ht.
  { exists h, []. simpl. rewrite (left_id_L ∅ (∪)).
    split_and!; [done|apply heap_le_refl|constructor|].
    intros p Hp. by apply elem_of_nil in Hp. }
  simpl. set (h0 := add t (length h) (h ++ [Node p []])).
  assert (heap_le h h0) as Hle0 by apply add_child_heap_le.
  destruct (IH h0 ((length h, p) :: stack) ({[p]} ∪ seen))
    as (h1 & es & Hfold & Hle1 & Hes & Hall).
  { by eapply heap_le_valid. }
  exists h1, (es ++ [(length h, p)]). split_and!.
  - rewrite Hfold, <-(assoc_L (++)). simpl. f_equal.
    apply set_eq. intros x. rewrite !elem_of_union. tauto.
  - by eapply heap_le_trans.
  - apply Forall_app. split.
    + eapply Forall_impl; [done|]. intros e (He & ? & ?).
      split_and!; [|done|done]. apply elem_of_cons. by right.
    + constructor; [|constructor]. simpl. split_and!.
      * apply elem_of_cons. by left.
      * eapply holds_mono; [done|]. by apply add_child_holds.
      * eapply child_of_mono; [done|]. by apply add_child_child_of.
  - intros q [->|Hq]%elem_of_cons.
    + exists (length h). apply elem_of_app. right. by apply list_elem_of_singleton.
    + destruct (Hall q Hq) as [c Hc]. exists c. apply elem_of_app. by left.
Qed.


(** *** The walk *)

Lemma walk_entries g es :
  Forall (λ e, good g e.2) es →
  ∀ h stack seen,
    Forall (λ e, e.1 < length h) es →
    ∃ k h' seen',
      (∀ fuel, walk (k + fuel) g (h, es ++ stack, seen) =
               walk fuel g (h', stack, seen')) ∧
      heap_le h h' ∧
      (∀ q, q ∈ seen' ↔ q ∈ seen ∨ ∃ e, e ∈ es ∧ tc (edge g) e.2 q) ∧
      Forall (λ e, ∀ p, tc (edge g) e.2 p →
                     ∃ c, in_tree h' e.1 c ∧ holds h' c p) es.
Proof.
  induction 1 as [|[t n] es Hn _ IH]; intros h stack seen Hvalid.
  { exists 0, h, seen. split_and!; [done|apply heap_le_refl| |constructor].
    intros q. split; [by left|]. intros [?|(e & He & _)]; [done|].
    by apply elem_of_nil in He. }
  apply Forall_cons in Hvalid as [Ht Hvalid]. simpl in Ht, Hn.
  destruct (Hn h t (es ++ stack) seen Ht)
    as (k1 & h1 & seen1 & Hwalk1 & Hle1 & Hseen1 & Htree1).
  destruct (IH h1 stack seen1) as (k2 & h2 & seen2 & Hwalk2 & Hle2 & Hseen2 & Htree2).
  { eapply Forall_impl; [done|]. intros e He. by eapply heap_le_valid. }
  exists (k1 + k2), h2, seen2. split_and!.
  - intros fuel. rewrite <-Nat.add_assoc. simpl. by rewrite Hwalk1, Hwalk2.
  - by eapply heap_le_trans.
  - intros q. rewrite Hseen2, Hseen1. split.
    + intros [[?|?]|(e & He & Hq)]; [by left| |].
      * right. exists (t, n). split; [apply elem_of_cons; by left|done].
      * right. exists e. split; [apply elem_of_cons; by right|done].
    + intros [?|(e & [->|He]%elem_of_cons & Hq)].
      * by do 2 left.
      * left. by right.
      * right. eauto.
  - constructor; [|done]. simpl. intros p Hp.
    destruct (Htree1 p Hp) as (c & Hc & Hholds). exists c.
    split; [by eapply in_tree_mono|by eapply holds_mono].
Qed.

Lemma tc_edge_inv g n q :
  tc (edge g) n q ↔ edge g n q ∨ ∃ p, edge g n p ∧ tc (edge g) p q.
Proof.
  split.
  - destruct 1; eauto.
  - intros [?|(p & ? & ?)]; [by apply tc_once|by eapply tc_l].
Qed.

Lemma all_good g :
  graph_closed g →
  ∀ n, Acc (flip (edge g)) n → is_Some (g !! n) → good g n.
Proof.
  intros Hclosed n Hacc.
  induction Hacc as [n _ IH]. intros [preds Hpreds] h t stack seen Ht.
  destruct (foldl_visit_pred t preds h stack seen Ht)
    as (h1 & es & Hfold & Hle1 & Hes & Hall).
  assert (∀ p, p ∈ preds ↔ edge g n p) as Hedge.
  { intros p. split; [intros ?; by exists preds|].
    intros (preds' & Hpreds' & ?). congruence. }
  destruct (walk_entries g es) with (h := h1) (stack := stack)
    (seen := list_to_set preds ∪ seen)
    as (k & h' & seen' & Hwalk & Hle' & Hseen' & Htree').
  { eapply Forall_impl; [done|]. intros e (He & _).
    apply Hedge in He. apply IH; [done|by eapply Hclosed]. }
  { eapply Forall_impl; [done|]. intros e (_ & (nd & Hnd & _) & _).
    by eapply lookup_lt_Some. }
  exists (S k), h', seen'. split_and!.
  - intros fuel. simpl. unfold predecessors_iter. rewrite Hpreds, Hfold.
    apply Hwalk.
  - by eapply heap_le_trans.
  - intros q. rewrite Hseen', tc_edge_inv, elem_of_union, elem_of_list_to_set.
    rewrite Hedge. split.
    + intros [[?|?]|(e & He & Hq)]; [right; by left|by left|].
      right. right. exists e.2. split; [|done].
      rewrite Forall_forall in Hes. apply Hedge. by apply Hes.
    + intros [?|[?|(p & Hp & Hq)]]; [left; by right|left; by left|].
      right. apply Hedge in Hp. destruct (Hall p Hp) as [c Hc].
      by exists (c, p).
  - intros p [Hp|(p' & Hp' & Hp)]%tc_edge_inv.
    + apply Hedge in Hp. destruct (Hall p Hp) as [c Hc].
      rewrite Forall_forall in Hes. destruct (Hes _ Hc) as (_ & Hh & Hch).
      exists c. split.
      * eapply in_tree_child; [constructor|by eapply child_of_mono].
      * by eapply holds_mono.
    + apply Hedge in Hp'. destruct (Hall p' Hp') as [c Hc].
      rewrite Forall_forall in Hes, Htree'.
      destruct (Hes _ Hc) as (_ & _ & Hch).
      destruct (Htree' _ Hc p Hp) as (c' & Hc' & Hh').
      exists c'. split; [|done].
      eapply in_tree_trans; [|done].
      eapply in_tree_child; [constructor|by eapply child_of_mono].
Qed.

Lemma acyclic_sn g a : graph_closed g → acyclic g → Acc (flip (edge g)) a.
Proof.
  intros Hclosed Hacyclic. apply tc_finite_sn; [exact Hacyclic|].
  exists (elements (dom g)). intros p Hp. apply elem_of_elements, elem_of_dom.
  induction Hp as [n p Hnp|n q p _ _ IH]; [by eapply Hclosed|done].
Qed.

(** Under the preconditions the walk from the root ends, and what it ends
    with. *)
Lemma walk_from_root g a :
  graph_closed g → acyclic g → is_Some (g !! a) →
  ∃ k h seen,
    (∀ fuel, k ≤ fuel →
       walk fuel g ([Node a []], [(0, a)], ∅) = Some (Ok (h, seen))) ∧
    holds h 0 a ∧
    (∀ q, q ∈ seen ↔ tc (edge g) a q) ∧
    (∀ p, tc (edge g) a p → ∃ c, in_tree h 0 c ∧ holds h c p).
Proof.
  intros Hclosed Hacyclic Ha.
  destruct (all_good g Hclosed a (acyclic_sn g a Hclosed Hacyclic) Ha
              [Node a []] 0 [] ∅) as (k & h & seen & Hwalk & Hle & Hseen & Htree).
  { simpl. lia. }
  exists k, h, seen. split_and!; [| |intros q|done].
  - intros fuel Hfuel. replace fuel with (k + (fuel - k)) by lia.
    rewrite Hwalk. by destruct (fuel - k).
  - eapply holds_mono; [done|]. by exists (Node a []).
  - rewrite Hseen, elem_of_empty. tauto.
Qed.

End predecessor_tree.

(** C5: on an acyclic graph, for an atom [a] of the graph,
    [_fetch_predecessor_tree] returns [(count, root)] where the root node
    carries [a], [count] is the number of distinct transitive predecessors
    of [a] ([a] itself is not among them), and every transitive predecessor
    of [a] is the item of some node of the returned tree. *)
Theorem fetch_predecessor_tree_counts_predecessors `{Countable A}
    (g : gmap A (list A)) (a : A) :
  graph_closed g → acyclic g → is_Some (g !! a) →
  ∃ k count root h (preds : gset A),
    (∀ fuel, k ≤ fuel →
       _fetch_predecessor_tree fuel g a = Some (Ok (count, root, h))) ∧
    holds h root a ∧
    (∀ p, p ∈ preds ↔ tc (edge g) a p) ∧
    (a ∉ preds) ∧
    count = size preds ∧
    (∀ p, tc (edge g) a p → ∃ c, in_tree h root c ∧ holds h c p).
Proof.
  intros Hclosed Hacyclic Ha.
  destruct (walk_from_root g a Hclosed Hacyclic Ha)
    as (k & h & seen & Hwalk & Hroot & Hseen & Htree).
  exists k, (size seen), 0, h, seen. split_and!; try done.
  - intros fuel Hfuel. unfold _fetch_predecessor_tree.
    by rewrite (Hwalk fuel Hfuel).
  - rewrite Hseen. apply Hacyclic.
Qed.

Lemma fetch_predecessor_tree_counts_predecessors_witness :
  ∃ k count root h (preds : gset nat),
    (∀ fuel, k ≤ fuel →
       _fetch_predecessor_tree fuel diamond 3 = Some (Ok (count, root, h))) ∧
    holds h root 3 ∧
    (∀ p, p ∈ preds ↔ tc (edge diamond) 3 p) ∧
    (3 ∉ preds) ∧
    count = size preds ∧
    (∀ p, tc (edge diamond) 3 p → ∃ c, in_tree h root c ∧ holds h c p).
Proof.
  apply (fetch_predecessor_tree_counts_predecessors diamond 3).
  - apply graph_closedb_correct. vm_compute. reflexivity.
  - apply (ranked_acyclic id). vm_compute. reflexivity.
  - exists [1; 2]. vm_compute. reflexivity.
Defined.

(** On the diamond the shared predecessor [0] gets two tree nodes and is
    counted once. *)
Example fetch_predecessor_tree_diamond :
  _fetch_predecessor_tree 5 diamond 3 =
  Some (Ok (3, 0, [Node 3 [1; 2]; Node 1 [4]; Node 2 [3]; Node 0 []; Node 0 []])).
Proof. vm_compute. reflexivity. Qed.

Lemma walk_self_loop fuel : ∀ h t stack seen,
  walk fuel self_loop (h, (t, 0) :: stack, seen) = None.
Proof.
  induction fuel as [|fuel IH]; intros h t stack seen; [done|].
  simpl. unfold predecessors_iter, self_loop. rewrite lookup_singleton_eq.
  simpl. apply IH.
Qed.

(** C7: on an acyclic graph [_fetch_predecessor_tree] terminates for every
    atom of the graph: from some amount of fuel on it returns a result.
    Without acyclicity it need not: on a node that is its own predecessor
    the stack never empties, whatever the fuel. *)
Theorem fetch_predecessor_tree_terminates_iff_acyclic :
  (∀ `{Countable A} (g : gmap A (list A)) (a : A),
     graph_closed g → acyclic g → is_Some (g !! a) →
     ∃ k, ∀ fuel, k ≤ fuel →
       ∃ r, _fetch_predecessor_tree fuel g a = Some (Ok r)) ∧
  (graph_closed self_loop ∧ is_Some (self_loop !! 0) ∧
   ¬ acyclic self_loop ∧
   ∀ fuel, _fetch_predecessor_tree fuel self_loop 0 = None).
Proof.
  split.
  - intros A ? ? g a Hclosed Hacyclic Ha.
    destruct (walk_from_root g a Hclosed Hacyclic Ha)
      as (k & h & seen & Hwalk & _).
    exists k. intros fuel Hfuel. unfold _fetch_predecessor_tree.
    rewrite (Hwalk fuel Hfuel). eauto.
  - split_and!.
    + apply graph_closedb_correct. vm_compute. reflexivity.
    + exists [0]. apply lookup_singleton_eq.
    + intros Hacyclic. apply (Hacyclic 0), tc_once.
      exists [0]. split; [apply lookup_singleton_eq|by left].
    + intros fuel. unfold _fetch_predecessor_tree.
      by rewrite walk_self_loop.
Qed.

Lemma fetch_predecessor_tree_terminates_witness :
  ∃ k, ∀ fuel, k ≤ fuel →
    ∃ r, _fetch_predecessor_tree fuel diamond 3 = Some (Ok r).
Proof.
  apply (proj1 fetch_predecessor_tree_terminates_iff_acyclic _ _ _ diamond 3).
  - apply graph_closedb_correct. vm_compute. reflexivity.
  - apply (ranked_acyclic id). vm_compute. reflexivity.
  - exists [1; 2]. vm_compute. reflexivity.
Defined.

End formatters_proofs.

Module async_utils_proofs.
Import async_utils.

(** *** Partitioning *)

Lemma partition_futures_foldl h fs : ∀ done not_done,
  foldl (λ '(done, not_done) f,
           if in_done_states h f then (done ++ [f], not_done)
           else (done, not_done ++ [f]))
        (done, not_done) fs =
  (done ++ filter (is_done h) fs, not_done ++ filter (λ f, ¬ is_done h f) fs).
Proof.
  induction fs as [|f fs IH]; intros done not_done; simpl.
  { by rewrite !app_nil_r. }
  rewrite !filter_cons.
  destruct (decide (is_done h f)) as [Hd|Hd].
  - assert (in_done_states h f = true) as ->
      by (by apply bool_decide_eq_true_2).
    rewrite decide_False by tauto.
    by rewrite IH, <-(assoc_L (++)).
  - assert (in_done_states h f = false) as ->
      by (by apply bool_decide_eq_false_2).
    rewrite decide_True by done.
    by rewrite IH, <-(assoc_L (++)).
Qed.

Lemma partition_futures_filter fs h :
  _partition_futures fs h =
  (filter (is_done h) fs, filter (λ f, ¬ is_done h f) fs).
Proof. unfold _partition_futures. by rewrite partition_futures_foldl. Qed.

(** *** Lists of waiters *)

Lemma occurrences_app x l1 l2 :
  occurrences x (l1 ++ l2) = occurrences x l1 + occurrences x l2.
Proof. induction l1 as [|y l1 IH]; simpl; [done|]. rewrite IH. lia. Qed.

Lemma occurrences_replicate x n : occurrences x (replicate n x) = n.
Proof.
  induction n as [|n IH]; simpl; [done|].
  rewrite decide_True by done. by rewrite IH.
Qed.

Lemma remove_present x l :
  0 < occurrences x l →
  ∃ l', remove x l = Ok l' ∧ occurrences x l = S (occurrences x l').
Proof.
  induction l as [|y l IH]; simpl; [lia|].
  destruct (decide (y = x)) as [->|Hne]; [eauto|].
  intros Hocc. destruct IH as (l' & -> & Hl'); [lia|].
  exists (y :: l'). simpl. rewrite decide_False by done. split; [done|lia].
Qed.

Lemma remove_fresh_prefix x l r :
  x ∉ l → remove x (l ++ x :: r) = Ok (l ++ r).
Proof.
  induction l as [|y l IH]; simpl; intros Hnin.
  { by rewrite decide_True. }
  apply not_elem_of_cons in Hnin as [Hne Hnin].
  rewrite decide_False by done. by rewrite IH.
Qed.

Lemma remove_n_fresh n x l :
  x ∉ l → remove_n n x (l ++ replicate n x) = l.
Proof.
  intros Hnin. induction n as [|n IH]; simpl; [by rewrite app_nil_r|].
  by rewrite remove_fresh_prefix.
Qed.

(** *** The two loops over [fs] *)

Lemma append_waiters_spec w fs : ∀ h,
  (∀ g, _state (futures (foldl (append_waiter w) h fs) g) =
          _state (futures h g) ∧
        green (futures (foldl (append_waiter w) h fs) g) =
          green (futures h g) ∧
        _waiters (futures (foldl (append_waiter w) h fs) g) =
          _waiters (futures h g) ++ replicate (occurrences g fs) w) ∧
  next_waiter (foldl (append_waiter w) h fs) = next_waiter h ∧
  trace (foldl (append_waiter w) h fs) = trace h.
Proof.
  induction fs as [|f fs IH]; intros h; simpl.
  { split; [|done]. intros g. by rewrite app_nil_r. }
  destruct (IH (append_waiter w h f)) as (Hfut & Hnext & Htrace).
  split; [|done]. intros g. destruct (Hfut g) as (-> & -> & ->).
  simpl. destruct (decide (f = g)) as [->|Hne].
  - rewrite decide_True by done. simpl.
    by rewrite <-(assoc_L (++)).
  - rewrite decide_False by done. done.
Qed.

Lemma remove_waiters_spec w fs : ∀ h,
  (∀ g, occurrences g fs ≤ occurrences w (_waiters (futures h g))) →
  ∃ h',
    remove_waiters w fs h = (Ok tt, h') ∧
    (∀ g, _state (futures h' g) = _state (futures h g) ∧
          green (futures h' g) = green (futures h g) ∧
          _waiters (futures h' g) =
            remove_n (occurrences g fs) w (_waiters (futures h g))) ∧
    next_waiter h' = next_waiter h ∧
    trace h' = trace h.
Proof.
  induction fs as [|f fs IH]; intros h Hocc; simpl.
  { exists h. done. }
  destruct (remove_present w (_waiters (futures h f))) as (l & Hl & Hcount).
  { specialize (Hocc f). simpl in Hocc. rewrite decide_True in Hocc by done.
    lia. }
  rewrite Hl.
  destruct (IH (set_waiters f l h)) as (h' & -> & Hfut & Hnext & Htrace).
  { intros g. specialize (Hocc g). simpl in *.
    destruct (decide (g = f)) as [->|Hne]; simpl.
    - rewrite decide_True in Hocc by done. lia.
    - rewrite decide_False in Hocc by done. lia. }
  exists h'. split_and!; [done| |done|done].
  intros g. destruct (Hfut g) as (-> & -> & ->). simpl.
  destruct (decide (g = f)) as [->|Hne]; simpl.
  - rewrite decide_True by done. simpl. by rewrite Hl.
  - rewrite decide_False by done. done.
Qed.

(** *** The blocking path *)

Lemma wait_for_any_blocks E wait fs timeout h :
  filter (is_done h) fs = [] →
  existsb (λ f, green (futures h f)) fs && negb E = false →
  ∃ h2,
    (∀ g, _waiters (futures h2 g) =
          _waiters (futures h g) ++
          replicate (occurrences g fs) (next_waiter h)) ∧
    trace h2 = trace h ++ [EventWait (next_waiter h) timeout] ∧
    (wait h2 = None → wait_for_any E wait fs timeout h = None) ∧
    (∀ states, wait h2 = Some states →
       ∃ h',
         wait_for_any E wait fs timeout h =
           Some (Ok (_partition_futures fs h'), h') ∧
         (∀ g, _state (futures h' g) = states g ∧
               _waiters (futures h' g) =
                 remove_n (occurrences g fs) (next_waiter h)
                   (_waiters (futures h g) ++
                    replicate (occurrences g fs) (next_waiter h))) ∧
         trace h' = trace h2).
Proof.
  intros Hnone Hgreen. unfold wait_for_any.
  rewrite partition_futures_filter, Hnone, Hgreen.
  set (w := next_waiter h).
  set (h0 := Store (futures h) (S w) (trace h)).
  destruct (append_waiters_spec w fs h0) as (Hfut & Hnext & Htrace).
  set (h1 := foldl (append_waiter w) h0 fs) in *.
  set (h2 := Store (futures h1) (next_waiter h1)
                   (trace h1 ++ [EventWait w timeout])).
  exists h2. split_and!.
  - intros g. simpl. by destruct (Hfut g) as (_ & _ & ->).
  - simpl. by rewrite Htrace.
  - by intros ->.
  - intros states ->.
    destruct (remove_waiters_spec w fs (set_states states h2))
      as (h' & Hrm & Hfut' & _ & Htrace').
    { intros g. simpl. destruct (Hfut g) as (_ & _ & ->).
      rewrite occurrences_app, occurrences_replicate. lia. }
    rewrite Hrm. exists h'. split_and!; [done| |done].
    intros g. destruct (Hfut' g) as (-> & _ & ->). simpl.
    by destruct (Hfut g) as (_ & _ & ->).
Qed.

Lemma green_assertion_passes E fs h :
  (E = false → ∀ f, f ∈ fs → green (futures h f) = false) →
  existsb (λ f, green (futures h f)) fs && negb E = false.
Proof.
  intros Hgreen. destruct E; [apply andb_false_r|].
  rewrite andb_true_r. apply not_true_is_false.
  intros (f & Hf & Hg)%existsb_exists.
  rewrite (Hgreen eq_refl f) in Hg; [done|]. by apply list_elem_of_In.
Qed.

(** C1: [wait_for_any(fs, timeout)] returns [(done, not_done)], the two
    lists together are a rearrangement of [fs], [done] holds exactly the
    futures of [fs] whose state is [CANCELLED_AND_NOTIFIED] or [FINISHED]
    when they are partitioned and [not_done] the others; the call returns
    whenever the event wait does; and when some future of [fs] is done at
    the call, it returns at once with that future in [done], the store
    (and with it the record of waits) untouched. *)
Theorem wait_for_any_partitions E wait fs timeout h :
  (E = false → ∀ f, f ∈ fs → green (futures h f) = false) →
  (∀ r h', wait_for_any E wait fs timeout h = Some (r, h') →
     ∃ done not_done,
       r = Ok (done, not_done) ∧
       done ++ not_done ≡ₚ fs ∧
       done = filter (is_done h') fs ∧
       not_done = filter (λ f, ¬ is_done h' f) fs) ∧
  ((∀ h1, is_Some (wait h1)) →
   is_Some (wait_for_any E wait fs timeout h)) ∧
  (∀ f, f ∈ fs → is_done h f →
     ∃ done not_done,
       wait_for_any E wait fs timeout h = Some (Ok (done, not_done), h) ∧
       f ∈ done).
Proof.
  intros Hgreen%green_assertion_passes.
  destruct (filter (is_done h) fs) as [|d ds] eqn:Hdone.
  - destruct (wait_for_any_blocks E wait fs timeout h Hdone Hgreen)
      as (h2 & _ & _ & Hnever & Hreturns).
    split_and!.
    + intros r h' Hcall. destruct (wait h2) as [states|] eqn:Hwait.
      * destruct (Hreturns states eq_refl) as (h'' & Hcall' & _).
        rewrite Hcall' in Hcall. injection Hcall as <- <-.
        rewrite partition_futures_filter. eexists _, _.
        split_and!; [done|apply filter_app_complement|done|done].
      * by rewrite Hnever in Hcall.
    + intros Hwait. destruct (Hwait h2) as [states Hstates].
      destruct (Hreturns states Hstates) as (h' & -> & _). eauto.
    + intros f Hf Hd.
      assert (f ∈ filter (is_done h) fs) as Hin by by apply list_elem_of_filter.
      rewrite Hdone in Hin. by apply elem_of_nil in Hin.
  - assert (wait_for_any E wait fs timeout h =
            Some (Ok (filter (is_done h) fs,
                      filter (λ f, ¬ is_done h f) fs), h)) as Hcall.
    { unfold wait_for_any. by rewrite partition_futures_filter, Hdone. }
    split_and!.
    + intros r h' Hcall'. rewrite Hcall in Hcall'. injection Hcall' as <- <-.
      eexists _, _. split_and!; [done|apply filter_app_complement|done|done].
    + intros _. by rewrite Hcall.
    + intros f Hf Hd. eexists _, _. split; [done|].
      by apply list_elem_of_filter.
Qed.

(** C6: after [wait_for_any] returns, every future's list of waiters is
    what it was before the call; and when no future of [fs] was done, so
    that the call blocked on the event with its waiter registered on every
    future of [fs], that waiter is gone from all of them afterwards. *)
Theorem wait_for_any_unregisters_waiter E wait fs timeout h r h' :
  store_wf h →
  wait_for_any E wait fs timeout h = Some (r, h') →
  (∀ g, _waiters (futures h' g) = _waiters (futures h g)) ∧
  ((∀ f, f ∈ fs → ¬ is_done h f) →
   (E = false → ∀ f, f ∈ fs → green (futures h f) = false) →
   ∃ h2,
     is_Some (wait h2) ∧
     (∀ f, f ∈ fs → next_waiter h ∈ _waiters (futures h2 f)) ∧
     trace h' = trace h ++ [EventWait (next_waiter h) timeout] ∧
     (∀ g, next_waiter h ∉ _waiters (futures h' g))).
Proof.
  intros Hwf Hcall.
  assert (∀ g, next_waiter h ∉ _waiters (futures h g)) as Hfresh.
  { intros g Hin. apply Hwf in Hin. lia. }
  assert (filter (is_done h) fs = [] →
          existsb (λ f, green (futures h f)) fs && negb E = false →
          ∃ h2,
            is_Some (wait h2) ∧
            (∀ g, _waiters (futures h2 g) =
                  _waiters (futures h g) ++
                  replicate (occurrences g fs) (next_waiter h)) ∧
            trace h' = trace h ++ [EventWait (next_waiter h) timeout] ∧
            (∀ g, _waiters (futures h' g) = _waiters (futures h g)))
    as Hblock.
  { intros Hnone Hgreen.
    destruct (wait_for_any_blocks E wait fs timeout h Hnone Hgreen)
      as (h2 & Hreg & Htrace & Hnever & Hreturns).
    exists h2. destruct (wait h2) as [states|] eqn:Hwait.
    2:{ by rewrite Hnever in Hcall. }
    destruct (Hreturns states eq_refl) as (h'' & Hcall' & Hfut & Htrace').
    rewrite Hcall' in Hcall. injection Hcall as <- <-.
    split_and!; [done|done|congruence|].
    intros g. destruct (Hfut g) as (_ & ->). by apply remove_n_fresh. }
  split.
  - destruct (filter (is_done h) fs) as [|d ds] eqn:Hdone.
    + destruct (existsb (λ f, green (futures h f)) fs && negb E) eqn:Hgreen.
      * unfold wait_for_any in Hcall.
        rewrite partition_futures_filter, Hdone, Hgreen in Hcall.
        by injection Hcall as <- <-.
      * by destruct (Hblock eq_refl eq_refl) as (h2 & _ & _ & _ & Hsame).
    + unfold wait_for_any in Hcall.
      rewrite partition_futures_filter, Hdone in Hcall.
      by injection Hcall as <- <-.
  - intros Hnone Hgreen%green_assertion_passes.
    assert (filter (is_done h) fs = []) as Hdone.
    { destruct (filter (is_done h) fs) as [|d ds] eqn:Hd; [done|].
      assert (d ∈ filter (is_done h) fs) as [Hdd Hdf]%list_elem_of_filter
        by (rewrite Hd; by left).
      by destruct (Hnone d Hdf). }
    destruct (Hblock Hdone Hgreen) as (h2 & Hwait & Hreg & Htrace & Hsame).
    exists h2. split_and!; [done| |done|].
    + intros f Hf. rewrite Hreg. apply elem_of_app. right.
      apply elem_of_replicate. split; [done|].
      clear -Hf. induction Hf as [f fs|f f' fs _ IH]; simpl.
      * rewrite decide_True by done. lia.
      * lia.
    + intros g. rewrite Hsame. apply Hfresh.
Qed.

Lemma three_futures_wf : store_wf three_futures.
Proof.
  intros g w. destruct g as [|[|g]]; simpl.
  - intros ->%list_elem_of_singleton. lia.
  - intros []%elem_of_nil.
  - intros []%elem_of_nil.
Qed.

Lemma wait_for_any_partitions_witness :
  ∃ done not_done,
    wait_for_any true (λ _, None) [0; 1; 2] None three_futures =
      Some (Ok (done, not_done), three_futures) ∧
    2 ∈ done.
Proof.
  refine (proj2 (proj2 (wait_for_any_partitions true (λ _, None) [0; 1; 2]
                          None three_futures _)) 2 _ _).
  - intros [=].
  - repeat constructor.
  - unfold is_done. simpl. repeat constructor.
Defined.

Lemma wait_for_any_unregisters_waiter_witness :
  _waiters (futures (store_after blocked_call) 0) =
  _waiters (futures three_futures 0).
Proof.
  apply (proj1 (wait_for_any_unregisters_waiter true all_finish [0; 1; 0] None
                  three_futures (Ok ([0; 1; 0], []))
                  (store_after blocked_call)
                  three_futures_wf eq_refl)).
Defined.

(** The blocked call on the three futures: the waiter [1] is registered
    on futures [0] (twice) and [1] while waiting, and [0] is left with the
    one waiter it had. *)
Example blocked_call_result :
  (λ c, (fst <$> c, _waiters (futures (store_after c) 0),
         trace (store_after c))) blocked_call =
  (Some (Ok ([0; 1; 0], [])), [0], [EventWait 1 None]).
Proof. vm_compute. reflexivity. Qed.

End async_utils_proofs.

Module worker_proofs.
Import worker.

(** *** [split] against the colons of the string *)

Lemma split_length s : length (split ":"%char s) = S (count_colons s).
Proof.
  induction s as [|c s IH]; simpl; [done|].
  destruct (decide (c = ":"%char)); simpl; [by rewrite IH|].
  destruct (split ":"%char s); simpl in *; [done|lia].
Qed.

Lemma split_single s x : split ":"%char s = [x] → x = s ∧ dotted s = s.
Proof.
  revert x. induction s as [|c s IH]; intros x; simpl.
  { by intros [= <-]. }
  destruct (decide (c = ":"%char)).
  { intros [= _ Hs]. pose proof (split_length s) as Hlen.
    rewrite Hs in Hlen. done. }
  pose proof (split_length s) as Hlen.
  destruct (split ":"%char s) as [|part parts] eqn:Hs; [done|].
  intros [= <- ->]. destruct (IH part eq_refl) as [-> ->]. done.
Qed.

Lemma split_pair s pkg cls :
  split ":"%char s = [pkg; cls] → pkg +:+ "." +:+ cls = dotted s.
Proof.
  revert pkg. induction s as [|c s IH]; intros pkg; simpl; [done|].
  destruct (decide (c = ":"%char)).
  { intros [= <- Hs]. apply split_single in Hs as [-> ->]. done. }
  pose proof (split_length s) as Hlen.
  destruct (split ":"%char s) as [|part parts] eqn:Hs; [done|].
  intros [= <- ->]. rewrite <-(IH part eq_refl). reflexivity.
Qed.

(** *** One item *)

Lemma derive_tasks_spec is_task members : ∀ derived c,
  c ∈ derive_tasks is_task members derived ↔
  c ∈ derived ∨ task_member is_task members c.
Proof.
  unfold derive_tasks, task_member.
  induction members as [|[name obj] members IH]; intros derived c; simpl.
  { split; [by left|]. intros [?|(_ & ? & []%elem_of_nil)]. done. }
  rewrite IH. clear IH.
  assert (∀ D : gset nat,
            (c ∈ D ∨ is_task c = true ∧ ∃ n, (n, PClass c) ∈ members) →
               c ∈ D ∨ is_task c = true ∧
                 ∃ n, (n, PClass c) ∈ (name, obj) :: members) as Hweak.
  { intros D [?|(? & n & ?)]; [by left|right].
    split; [done|]. exists n. apply elem_of_cons. by right. }
  assert (∀ D : gset nat,
               (is_task c = true ∧
                ∃ n, (n, PClass c) ∈ (name, obj) :: members) →
               obj ≠ PClass c →
               c ∈ D ∨ is_task c = true ∧ ∃ n, (n, PClass c) ∈ members)
    as Hother.
  { intros D (? & n & [[= _ <-]|?]%elem_of_cons) Hne; [done|].
    right. eauto. }
  destruct obj as [s|ms|c'|]; simpl.
  - split; [apply Hweak|]. intros [?|?]; [by left|by apply Hother].
  - split; [apply Hweak|]. intros [?|?]; [by left|by apply Hother].
  - destruct (is_task c') eqn:Htask.
    + rewrite elem_of_union, elem_of_singleton. split.
      * intros [[->|?]|?]; [|by left|by apply Hweak; right].
        right. split; [done|]. exists name. apply elem_of_cons. by left.
      * intros [?|Hm]; [left; by right|].
        destruct (decide (c = c')) as [->|Hne]; [left; by left|].
        destruct (Hother derived Hm) as [?|?]; [congruence|left; by right|by right].
    + split; [apply Hweak|]. intros [?|Hm]; [by left|].
      apply Hother; [done|]. intros [= ->].
      destruct Hm as [? _]. congruence.
  - split; [apply Hweak|]. intros [?|?]; [by left|by apply Hother].
Qed.

Lemma derive_item_refused imp is_task item derived log e :
  item_error imp is_task item = Some e →
  derive_item imp is_task item derived log =
    (Raise e, log ++ item_imports item).
Proof.
  destruct item as [s|ms|c|]; simpl.
  - pose proof (split_length s) as Hlen.
    destruct (split ":"%char s) as [|pkg [|cls [|x l]]] eqn:Hs; simpl in Hlen.
    + done.
    + destruct (decide (count_colons s = 1)); [lia|].
      destruct (import_module imp s); [done|by intros [= <-]].
    + destruct (decide (count_colons s = 1)); [|lia]. rewrite (split_pair _ _ _ Hs).
      destruct (import_class imp (dotted s)) as [obj|e']; [|by intros [= <-]].
      destruct obj as [?|?|c|]; simpl; try by intros [= <-].
      destruct (is_task c); [done|by intros [= <-]].
    + destruct (decide (count_colons s = 1)); [lia|].
      destruct (import_module imp s); [done|by intros [= <-]].
  - done.
  - destruct (is_task c); [done|]. intros [= <-]. by rewrite app_nil_r.
  - intros [= <-]. by rewrite app_nil_r.
Qed.

Lemma derive_item_accepted imp is_task item derived log :
  item_error imp is_task item = None →
  ∃ derived',
    derive_item imp is_task item derived log =
      (Ok derived', log ++ item_imports item) ∧
    ∀ c, c ∈ derived' ↔ c ∈ derived ∨ yields imp is_task item c.
Proof.
  destruct item as [s|ms|c|]; simpl.
  - pose proof (split_length s) as Hlen.
    assert (∀ module, import_module imp s = Ok module →
      ∀ c, c ∈ derive_tasks is_task module derived ↔
           c ∈ derived ∨ ∃ module', import_module imp s = Ok module' ∧
                                    task_member is_task module' c) as Hmod.
    { intros module Hm c. rewrite derive_tasks_spec. split.
      - intros [?|?]; [by left|right; eauto].
      - intros [?|(module' & Hm' & ?)]; [by left|right]. congruence. }
    destruct (split ":"%char s) as [|pkg [|cls [|x l]]] eqn:Hs; simpl in Hlen.
    + done.
    + destruct (decide (count_colons s = 1)); [lia|].
      destruct (import_module imp s) as [module|] eqn:Hm; [|done].
      intros _. eexists. split; [done|]. by apply Hmod.
    + destruct (decide (count_colons s = 1)); [|lia]. rewrite (split_pair _ _ _ Hs).
      destruct (import_class imp (dotted s)) as [obj|e'] eqn:Hc; [|done].
      destruct obj as [?|?|c|]; simpl; try done.
      destruct (is_task c) eqn:Htask; [|done].
      intros _. eexists. split; [done|]. intros c'.
      rewrite elem_of_union, elem_of_singleton. split.
      * intros [->|?]; [by right|by left].
      * intros [?|[[= ->] _]]; [by right|by left].
    + destruct (decide (count_colons s = 1)); [lia|].
      destruct (import_module imp s) as [module|] eqn:Hm; [|done].
      intros _. eexists. split; [done|]. by apply Hmod.
  - intros _. eexists. split; [by rewrite app_nil_r|].
    apply derive_tasks_spec.
  - destruct (is_task c) eqn:Htask; [|done].
    intros _. eexists. split; [by rewrite app_nil_r|]. intros c'.
    rewrite elem_of_union, elem_of_singleton. split.
    + intros [->|?]; [by right|by left].
    + intros [?|[-> _]]; [by right|by left].
  - done.
Qed.

(** *** The whole list *)

Lemma derive_items_accepted imp is_task tasks : ∀ derived log,
  Forall (λ item, item_error imp is_task item = None) tasks →
  ∃ derived',
    derive_items imp is_task tasks derived log =
      (Ok derived', log ++ tasks ≫= item_imports) ∧
    ∀ c, c ∈ derived' ↔
         c ∈ derived ∨ ∃ item, item ∈ tasks ∧ yields imp is_task item c.
Proof.
  induction tasks as [|item tasks IH]; intros derived log Hok; simpl.
  { exists derived. split; [by rewrite app_nil_r|]. intros c.
    split; [by left|]. intros [?|(? & []%elem_of_nil & _)]. done. }
  apply Forall_cons in Hok as [Hitem Hok].
  destruct (derive_item_accepted imp is_task item derived log Hitem)
    as (derived1 & -> & Hd1).
  destruct (IH derived1 (log ++ item_imports item) Hok)
    as (derived' & -> & Hd').
  exists derived'. split; [by rewrite ?bind_cons, (assoc_L (++))|].
  intros c. rewrite Hd', Hd1. split.
  - intros [[?|?]|(item' & ? & ?)]; [by left| |].
    + right. exists item. split; [apply elem_of_cons; by left|done].
    + right. exists item'. split; [apply elem_of_cons; by right|done].
  - intros [?|(item' & [->|?]%elem_of_cons & ?)].
    + by do 2 left.
    + left. by right.
    + right. eauto.
Qed.

Lemma derive_items_refused imp is_task accepted item rest e : ∀ derived log,
  Forall (λ item, item_error imp is_task item = None) accepted →
  item_error imp is_task item = Some e →
  derive_items imp is_task (accepted ++ item :: rest) derived log =
    (Raise e, log ++ (accepted ++ [item]) ≫= item_imports).
Proof.
  induction accepted as [|item' accepted IH]; intros derived log Hok Herr;
    simpl.
  { rewrite (derive_item_refused _ _ _ _ _ _ Herr).
    by rewrite ?bind_singleton, ?app_nil_r. }
  apply Forall_cons in Hok as [Hitem Hok].
  destruct (derive_item_accepted imp is_task item' derived log Hitem)
    as (derived1 & -> & _).
  rewrite (IH _ _ Hok Herr). by rewrite ?bind_cons, (assoc_L (++)).
Qed.

(** C4, amended: [_derive_endpoints(tasks)] returns one [Endpoint] per
    distinct derived task class.  A string item with exactly one [':']
    is imported as a class and refused with [TypeError] unless the object is
    a [BaseTask] subclass; any other string item (no [':'], or more than
    one) is imported as a module; a module contributes every member that is
    a [BaseTask] subclass; a [BaseTask] subclass contributes itself; an
    item of any other type is refused with [TypeError].  The first refused
    item ends the call with its exception. *)
Theorem derive_endpoints_by_item imp is_task tasks :
  (Forall (λ item, item_error imp is_task item = None) tasks →
   ∃ eps,
     _derive_endpoints imp is_task tasks = (Ok eps, tasks ≫= item_imports) ∧
     NoDup eps ∧
     ∀ c, {| task_cls := c |} ∈ eps ↔
          ∃ item, item ∈ tasks ∧ yields imp is_task item c) ∧
  (∀ accepted item rest e,
     tasks = accepted ++ item :: rest →
     Forall (λ item, item_error imp is_task item = None) accepted →
     item_error imp is_task item = Some e →
     _derive_endpoints imp is_task tasks =
       (Raise e, (accepted ++ [item]) ≫= item_imports)).
Proof.
  split.
  - intros Hok. unfold _derive_endpoints.
    destruct (derive_items_accepted imp is_task tasks ∅ [] Hok)
      as (derived & -> & Hderived).
    eexists. split_and!; [done| |].
    + apply NoDup_fmap_2_strong; [|apply NoDup_elements].
      by intros c1 c2 _ _ [= ->].
    + intros c. rewrite list_elem_of_fmap. split.
      * intros (c' & [= <-] & Hc%elem_of_elements).
        apply Hderived in Hc as [[]%elem_of_empty|?]. done.
      * intros Hc. exists c. split; [done|].
        apply elem_of_elements, Hderived. by right.
  - intros accepted item rest e -> Hok Herr. unfold _derive_endpoints.
    by rewrite (derive_items_refused imp is_task accepted item rest e ∅ []
                  Hok Herr).
Qed.

Lemma derive_endpoints_by_item_witness :
  ∃ eps,
    _derive_endpoints small_importer small_is_task
      [PStr "m"; PStr "m:T1"; PClass 2; PModule [("x", PClass 3)]] =
      (Ok eps, [ImportModule "m"; ImportClass "m.T1"]) ∧
    NoDup eps ∧
    ∀ c, {| task_cls := c |} ∈ eps ↔
         ∃ item,
           item ∈ [PStr "m"; PStr "m:T1"; PClass 2;
                   PModule [("x", PClass 3)]] ∧
           yields small_importer small_is_task item c.
Proof.
  refine (proj1 (derive_endpoints_by_item small_importer small_is_task
                   [PStr "m"; PStr "m:T1"; PClass 2;
                    PModule [("x", PClass 3)]]) _).
  repeat constructor.
Defined.

(** The endpoints of that list: the class [1] comes from three items and
    is served once; a class that is no task ends the call. *)
Example derive_endpoints_small :
  _derive_endpoints small_importer small_is_task
    [PStr "m"; PStr "m:T1"; PClass 1; PModule [("x", PClass 3)]] =
    (Ok [{| task_cls := 2 |}; {| task_cls := 3 |}; {| task_cls := 1 |}],
     [ImportModule "m"; ImportClass "m.T1"]) ∧
  _derive_endpoints small_importer small_is_task
    [PStr "m"; PClass 9; PStr "m:T1"] =
    (Raise TypeError, [ImportModule "m"]).
Proof. split; vm_compute; reflexivity. Qed.

(** The rule as first stated fails on a string with two colons: the
    unpacking of [item.split(':')] raises [ValueError] for three parts as
    it does for one, and the item is imported as a module. *)
Lemma derive_endpoints_two_colons_is_module : ¬ colon_means_class.
Proof.
  intros Hrule.
  destruct (Hrule odd_importer (λ _, true) "a:b:c") as [import_str Himp].
  - vm_compute. lia.
  - vm_compute in Himp. discriminate Himp.
Qed.

End worker_proofs.

Module async_utils_waiter_proofs.
Import async_utils async_utils_waiter async_utils_proofs.

Lemma future_eta (x : future) s w g :
  _state x = s → _waiters x = w → green x = g → x = Future s w g.
Proof. destruct x. simpl. by intros -> -> ->. Qed.

Lemma occurrences_absent g fs : g ∉ fs → occurrences g fs = 0.
Proof.
  induction fs as [|f fs IH]; simpl; [done|].
  intros [Hne Hnin]%not_elem_of_cons.
  rewrite decide_False by done. by rewrite IH.
Qed.

Lemma occurrences_present g fs : g ∈ fs → 0 < occurrences g fs.
Proof.
  induction 1 as [g fs|g f fs _ IH]; simpl; [|lia].
  rewrite decide_True by done. lia.
Qed.

(** The store during the wait, future by future. *)
Lemma store_at_wait_futures fs timeout h g :
  futures (store_at_wait fs timeout h) g =
  Future (_state (futures h g))
         (_waiters (futures h g) ++
          replicate (occurrences g fs) (next_waiter h))
         (green (futures h g)).
Proof.
  unfold store_at_wait. simpl.
  destruct (append_waiters_spec (next_waiter h) fs
              (Store (futures h) (S (next_waiter h)) (trace h)))
    as (Hfut & _ & _).
  destruct (Hfut g) as (Hs & Hg & Hw). by apply future_eta.
Qed.

Lemma store_at_wait_next fs timeout h :
  next_waiter (store_at_wait fs timeout h) = S (next_waiter h) ∧
  trace (store_at_wait fs timeout h) =
    trace h ++ [EventWait (next_waiter h) timeout].
Proof.
  unfold store_at_wait. simpl.
  destruct (append_waiters_spec (next_waiter h) fs
              (Store (futures h) (S (next_waiter h)) (trace h)))
    as (_ & -> & ->).
  done.
Qed.

(** The call on the blocking path, in terms of the store at the wait. *)
Lemma wait_for_any_at_wait E wait fs timeout h :
  filter (is_done h) fs = [] →
  existsb (λ f, green (futures h f)) fs && negb E = false →
  wait_for_any E wait fs timeout h =
  match wait (store_at_wait fs timeout h) with
  | None => None
  | Some states =>
      match remove_waiters (next_waiter h) fs
              (set_states states (store_at_wait fs timeout h)) with
      | (Raise e, h') => Some (Raise e, h')
      | (Ok _, h') => Some (Ok (_partition_futures fs h'), h')
      end
  end.
Proof.
  intros Hnone Hgreen. unfold wait_for_any, store_at_wait.
  by rewrite partition_futures_filter, Hnone, Hgreen.
Qed.

(** What the call returns with once the wait has returned [states]. *)
Lemma wait_for_any_after_wait E wait fs timeout h states :
  filter (is_done h) fs = [] →
  existsb (λ f, green (futures h f)) fs && negb E = false →
  wait (store_at_wait fs timeout h) = Some states →
  ∃ h',
    wait_for_any E wait fs timeout h =
      Some (Ok (_partition_futures fs h'), h') ∧
    (∀ g, _state (futures h' g) = states g ∧
          green (futures h' g) = green (futures h g) ∧
          _waiters (futures h' g) =
            remove_n (occurrences g fs) (next_waiter h)
              (_waiters (futures h g) ++
               replicate (occurrences g fs) (next_waiter h))) ∧
    next_waiter h' = S (next_waiter h) ∧
    trace h' = trace h ++ [EventWait (next_waiter h) timeout].
Proof.
  intros Hnone Hgreen Hwait.
  rewrite (wait_for_any_at_wait E wait fs timeout h Hnone Hgreen), Hwait.
  destruct (remove_waiters_spec (next_waiter h) fs
              (set_states states (store_at_wait fs timeout h)))
    as (h' & -> & Hfut & Hnext & Htrace).
  { intros g.
    change (_waiters (futures
              (set_states states (store_at_wait fs timeout h)) g))
      with (_waiters (futures (store_at_wait fs timeout h) g)).
    rewrite store_at_wait_futures. simpl.
    rewrite occurrences_app, occurrences_replicate. lia. }
  exists h'. split_and!; [done| | |].
  - intros g. destruct (Hfut g) as (-> & -> & ->).
    change (_waiters (futures
              (set_states states (store_at_wait fs timeout h)) g))
      with (_waiters (futures (store_at_wait fs timeout h) g)).
    change (green (futures
              (set_states states (store_at_wait fs timeout h)) g))
      with (green (futures (store_at_wait fs timeout h) g)).
    by rewrite store_at_wait_futures.
  - rewrite Hnext. apply (store_at_wait_next fs timeout h).
  - rewrite Htrace. apply (store_at_wait_next fs timeout h).
Qed.

Lemma no_done_filter fs h :
  (∀ f, f ∈ fs → ¬ is_done h f) → filter (is_done h) fs = [].
Proof.
  intros Hnone. destruct (filter (is_done h) fs) as [|d ds] eqn:Hd; [done|].
  assert (d ∈ filter (is_done h) fs) as [Hdd Hdf]%list_elem_of_filter
    by (rewrite Hd; by left).
  by destruct (Hnone d Hdf).
Qed.

End async_utils_waiter_proofs.

Module async_utils_extra.
Import async_utils async_utils_waiter async_utils_examples.
Import async_utils_proofs async_utils_waiter_proofs.

Lemma filter_idem_done h (l : list nat) :
  filter (is_done h) (filter (is_done h) l) = filter (is_done h) l ∧
  filter (λ f, ¬ is_done h f) (filter (is_done h) l) = [] ∧
  filter (is_done h) (filter (λ f, ¬ is_done h f) l) = [] ∧
  filter (λ f, ¬ is_done h f) (filter (λ f, ¬ is_done h f) l) =
    filter (λ f, ¬ is_done h f) l.
Proof.
  induction l as [|f l (IH1 & IH2 & IH3 & IH4)]; [done|].
  rewrite !filter_cons. destruct (decide (is_done h f)) as [Hd|Hd].
  - rewrite decide_False by tauto. rewrite !filter_cons.
    rewrite decide_True by done. rewrite decide_False by tauto.
    by rewrite IH1, IH2, IH3, IH4.
  - rewrite decide_True by done. rewrite !filter_cons.
    rewrite decide_False by done. rewrite decide_True by done.
    by rewrite IH1, IH2, IH3, IH4.
Qed.

(** [_partition_futures] keeps the order of [fs] in both lists, loses and
    duplicates nothing, and partitioning either list again leaves it whole
    on its side. *)
Theorem partition_futures_stable fs h :
  sublist (_partition_futures fs h).1 fs ∧
  sublist (_partition_futures fs h).2 fs ∧
  length (_partition_futures fs h).1 + length (_partition_futures fs h).2 =
    length fs ∧
  _partition_futures (_partition_futures fs h).1 h =
    ((_partition_futures fs h).1, []) ∧
  _partition_futures (_partition_futures fs h).2 h =
    ([], (_partition_futures fs h).2).
Proof.
  rewrite !partition_futures_filter. simpl.
  destruct (filter_idem_done h fs) as (H1 & H2 & H3 & H4).
  split_and!.
  - apply sublist_filter.
  - apply sublist_filter.
  - rewrite <-length_app. apply Permutation_length, filter_app_complement.
  - by rewrite H1, H2.
  - by rewrite H3, H4.
Qed.

(** When the event wait never returns, [wait_for_any] returns exactly when
    some future of [fs] is already done at the call; for an empty [fs] in
    particular it never returns. *)
Theorem wait_for_any_returns_without_event_iff E fs timeout h :
  (E = false → ∀ f, f ∈ fs → green (futures h f) = false) →
  is_Some (wait_for_any E (λ _, None) fs timeout h) ↔
  ∃ f, f ∈ fs ∧ is_done h f.
Proof.
  intros Hgreen%green_assertion_passes.
  destruct (filter (is_done h) fs) as [|d ds] eqn:Hdone.
  - rewrite (wait_for_any_at_wait E _ fs timeout h Hdone Hgreen). split.
    + by intros [? [=]].
    + intros (f & Hf & Hd).
      assert (f ∈ filter (is_done h) fs) as Hin
        by by apply list_elem_of_filter.
      rewrite Hdone in Hin. by apply elem_of_nil in Hin.
  - unfold wait_for_any. rewrite partition_futures_filter, Hdone. split.
    + intros _. exists d.
      assert (d ∈ filter (is_done h) fs) as [? ?]%list_elem_of_filter
        by (rewrite Hdone; by left).
      done.
    + intros _. eauto.
Qed.

Lemma wait_for_any_returns_without_event_witness :
  is_Some (wait_for_any true (λ _, None) [] None three_futures) ↔
  ∃ f, f ∈ [] ∧ is_done three_futures f.
Proof.
  refine (wait_for_any_returns_without_event_iff true [] None
            three_futures _).
  intros [=].
Defined.

(** With a green future in [fs] and eventlet unavailable, a call that
    finds no future done raises [AssertionError] before any wait, leaving
    the store as it was; a call that finds a future done never builds the
    waiter and returns normally. *)
Theorem wait_for_any_green_without_eventlet wait fs timeout h :
  (∃ f, f ∈ fs ∧ green (futures h f) = true) →
  ((∀ f, f ∈ fs → ¬ is_done h f) →
   wait_for_any false wait fs timeout h = Some (Raise AssertionError, h)) ∧
  ((∃ f, f ∈ fs ∧ is_done h f) →
   ∃ done not_done,
     wait_for_any false wait fs timeout h = Some (Ok (done, not_done), h)).
Proof.
  intros (f & Hf & Hg). split.
  - intros Hnone%no_done_filter. unfold wait_for_any.
    rewrite partition_futures_filter, Hnone.
    assert (existsb (λ f, green (futures h f)) fs = true) as ->.
    { apply existsb_exists. exists f. split; [by apply list_elem_of_In|done]. }
    done.
  - intros (d & Hd & Hdone). unfold wait_for_any.
    rewrite partition_futures_filter.
    destruct (filter (is_done h) fs) as [|d' ds] eqn:Hfilter; [|eauto].
    assert (d ∈ filter (is_done h) fs) as Hin by by apply list_elem_of_filter.
    rewrite Hfilter in Hin. by apply elem_of_nil in Hin.
Qed.

Lemma wait_for_any_green_without_eventlet_witness :
  wait_for_any false (λ _, None) [0] None green_pending =
  Some (Raise AssertionError, green_pending).
Proof.
  refine (proj1 (wait_for_any_green_without_eventlet (λ _, None) [0] None
                   green_pending _) _).
  - exists 0. split; [repeat constructor|reflexivity].
  - intros f ->%list_elem_of_singleton. unfold is_done. simpl.
    intros [[=]|[[=]|[]%elem_of_nil]%elem_of_cons]%elem_of_cons.
Defined.

(** On the blocking path the event wait sees the caller's waiter on every
    future of [fs] and on no other: a future outside [fs] is handed to the
    wait exactly as it was, and no state has changed yet. *)
Theorem wait_registers_on_fs_only E fs timeout h :
  (∀ f, f ∈ fs → ¬ is_done h f) →
  (E = false → ∀ f, f ∈ fs → green (futures h f) = false) →
  (∀ wait, wait_for_any E wait fs timeout h = None ↔
           wait (store_at_wait fs timeout h) = None) ∧
  (∀ g, g ∈ fs →
        next_waiter h ∈ _waiters (futures (store_at_wait fs timeout h) g)) ∧
  (∀ g, g ∉ fs → futures (store_at_wait fs timeout h) g = futures h g) ∧
  (∀ g, _state (futures (store_at_wait fs timeout h) g) =
        _state (futures h g)).
Proof.
  intros Hnone%no_done_filter Hgreen%green_assertion_passes. split_and!.
  - intros wait.
    rewrite (wait_for_any_at_wait E wait fs timeout h Hnone Hgreen).
    destruct (wait (store_at_wait fs timeout h)) as [states|] eqn:Hwait;
      [|done].
    destruct (wait_for_any_after_wait E wait fs timeout h states
                Hnone Hgreen Hwait) as (h' & Hcall & _).
    rewrite (wait_for_any_at_wait E wait fs timeout h Hnone Hgreen), Hwait
      in Hcall.
    by rewrite Hcall.
  - intros g Hg. rewrite store_at_wait_futures. simpl.
    apply elem_of_app. right. apply elem_of_replicate. split; [done|].
    apply occurrences_present in Hg. lia.
  - intros g Hg. rewrite store_at_wait_futures, (occurrences_absent g fs Hg).
    simpl. rewrite app_nil_r. by destruct (futures h g).
  - intros g. by rewrite store_at_wait_futures.
Qed.

Lemma wait_registers_on_fs_only_witness :
  futures (store_at_wait [0; 1] None three_futures) 2 =
  futures three_futures 2.
Proof.
  refine (proj1 (proj2 (proj2 (wait_registers_on_fs_only true [0; 1] None
                                 three_futures _ _))) 2 _).
  - intros f Hf. unfold is_done.
    apply elem_of_cons in Hf as [->|Hf];
      [|apply list_elem_of_singleton in Hf as ->]; simpl;
      intros [[=]|[[=]|[]%elem_of_nil]%elem_of_cons]%elem_of_cons.
  - intros [=].
  - intros [[=]|[[=]|[]%elem_of_nil]%elem_of_cons]%elem_of_cons.
Defined.

(** [wait_for_any] keeps the store well formed: afterwards every
    registered waiter is still older than the next fresh one, at most one
    waiter reference was used up, and no future changed its kind. *)
Theorem wait_for_any_keeps_store_wf E wait fs timeout h r h' :
  store_wf h →
  wait_for_any E wait fs timeout h = Some (r, h') →
  store_wf h' ∧
  next_waiter h ≤ next_waiter h' ≤ S (next_waiter h) ∧
  ∀ g, green (futures h' g) = green (futures h g).
Proof.
  intros Hwf Hcall.
  assert (h' = h → store_wf h' ∧
          next_waiter h ≤ next_waiter h' ≤ S (next_waiter h) ∧
          ∀ g, green (futures h' g) = green (futures h g)) as Hsame.
  { intros ->. split_and!; [done|lia|lia|done]. }
  destruct (filter (is_done h) fs) as [|d ds] eqn:Hdone.
  2:{ unfold wait_for_any in Hcall.
      rewrite partition_futures_filter, Hdone in Hcall.
      injection Hcall as <- <-. by apply Hsame. }
  destruct (existsb (λ f, green (futures h f)) fs && negb E) eqn:Hgreen.
  { unfold wait_for_any in Hcall.
    rewrite partition_futures_filter, Hdone, Hgreen in Hcall.
    injection Hcall as <- <-. by apply Hsame. }
  destruct (wait (store_at_wait fs timeout h)) as [states|] eqn:Hwait.
  2:{ by rewrite (wait_for_any_at_wait E wait fs timeout h Hdone Hgreen),
        Hwait in Hcall. }
  destruct (wait_for_any_after_wait E wait fs timeout h states
              Hdone Hgreen Hwait) as (h'' & Hcall' & Hfut & Hnext & _).
  rewrite Hcall' in Hcall. injection Hcall as <- <-.
  split_and!; [|lia|lia|intros g; by destruct (Hfut g) as (_ & -> & _)].
  intros g w. destruct (Hfut g) as (_ & _ & ->).
  rewrite remove_n_fresh.
  - intros Hin%Hwf. lia.
  - intros Hin%Hwf. lia.
Qed.

Lemma wait_for_any_keeps_store_wf_witness :
  store_wf (store_after blocked_call).
Proof.
  refine (proj1 (wait_for_any_keeps_store_wf true all_finish [0; 1; 0] None
                   three_futures (Ok ([0; 1; 0], []))
                   (store_after blocked_call) three_futures_wf _)).
  reflexivity.
Defined.

Lemma told_events m f l : ∀ events w,
  foldl (λ ev waiter, call_method m waiter f ev) events l w =
  bool_decide (w ∈ l) || events w.
Proof.
  induction l as [|x l IH]; intros events w; cbn [foldl].
  { rewrite bool_decide_eq_false_2; [done|]. apply not_elem_of_nil. }
  rewrite IH.
  assert (call_method m x f events w = bool_decide (w = x) || events w)
    as ->.
  { destruct m; unfold call_method, add_result, add_exception,
      add_cancelled, event_set; by case_decide; case_bool_decide. }
  destruct (decide (w = x)) as [->|Hne].
  - rewrite !(bool_decide_eq_true_2 (x ∈ x :: l)) by (by left).
    rewrite (bool_decide_eq_true_2 (x = x)) by done.
    by rewrite orb_true_r.
  - rewrite (bool_decide_eq_false_2 (w = x)) by done. cbn [orb].
    destruct (decide (w ∈ l)) as [Hin|Hnin].
    + rewrite !bool_decide_eq_true_2; [done|by right|done].
    + rewrite !bool_decide_eq_false_2; [done| |done].
      by intros [?|?]%elem_of_cons.
Qed.

(** While [wait_for_any] waits, whichever of [add_result],
    [add_exception] and [add_cancelled] is called on the waiters of a
    future of [fs], the event of the caller's waiter gets set; called on
    the waiters of a future outside [fs], it leaves that event as it is;
    and no such call ever clears an event that was set. *)
Theorem waiter_methods_set_caller_event m f fs timeout h events :
  (f ∈ fs →
   tell_waiters m f (store_at_wait fs timeout h) events (next_waiter h) =
     true) ∧
  (f ∉ fs → store_wf h →
   tell_waiters m f (store_at_wait fs timeout h) events (next_waiter h) =
     events (next_waiter h)) ∧
  (∀ w, events w = true →
        tell_waiters m f (store_at_wait fs timeout h) events w = true).
Proof.
  unfold tell_waiters. split_and!.
  - intros Hf. rewrite told_events, store_at_wait_futures. cbn [_waiters].
    rewrite bool_decide_eq_true_2; [done|].
    apply elem_of_app. right. apply elem_of_replicate. split; [done|].
    apply occurrences_present in Hf. lia.
  - intros Hf Hwf. rewrite told_events, store_at_wait_futures.
    cbn [_waiters]. rewrite (occurrences_absent f fs Hf). simpl.
    rewrite app_nil_r, bool_decide_eq_false_2; [done|].
    intros Hin%Hwf. lia.
  - intros w Hw. rewrite told_events, Hw. apply orb_true_r.
Qed.

Lemma waiter_methods_set_caller_event_witness :
  tell_waiters Add_cancelled 1 (store_at_wait [0; 1] None three_futures)
    (λ _, false) (next_waiter three_futures) = true ∧
  tell_waiters Add_result 2 (store_at_wait [0; 1] None three_futures)
    (λ _, false) (next_waiter three_futures) = false.
Proof.
  split.
  - refine (proj1 (waiter_methods_set_caller_event Add_cancelled 1 [0; 1]
                     None three_futures (λ _, false)) _).
    repeat constructor.
  - refine (proj1 (proj2 (waiter_methods_set_caller_event Add_result 2
                            [0; 1] None three_futures (λ _, false))) _ _).
    + rewrite !elem_of_cons, elem_of_nil. intros [[=]|[[=]|[]]].
    + exact three_futures_wf.
Defined.

End async_utils_extra.

Module formatters_extra.
Import formatters formatters_examples formatters_proofs.

(** *** [_cached_get] *)

(** Without a dictionary under [cache_key] the call cannot succeed, and
    the fetch function is still invoked, once.  When the fetch returns, or
    raises [StorageFailure] or [NotFound], the call raises [KeyError] from
    the store that follows; when the fetch raises anything else, that
    exception propagates.  The cache is left as it was in each case. *)
Theorem cached_get_missing_bucket {W} (cache : cache_t) ck an
    (fetch : W → outcome pyval * W) w n :
  cache !! ck = None →
  ∃ e,
    _cached_get cache ck an (counting fetch) (n, w) =
      (Raise e, cache, (S n, (fetch w).2)) ∧
    (∀ v, (fetch w).1 = Ok v → e = KeyError) ∧
    ((fetch w).1 = Raise StorageFailure → e = KeyError) ∧
    ((fetch w).1 = Raise NotFound → e = KeyError) ∧
    (∀ e', (fetch w).1 = Raise e' → e' ≠ StorageFailure → e' ≠ NotFound →
           e = e').
Proof.
  intros Hck. unfold _cached_get, counting. rewrite Hck. simpl.
  destruct (fetch w) as [[v|e] w']; simpl.
  { exists KeyError. split_and!; [done|done|done|done|by intros e' [=]]. }
  destruct e;
    (eexists; split; [reflexivity|];
     split_and!; [by intros v [=]|by intros [=]|by intros [=]|
                  by intros e' [= <-]]).
Qed.

Lemma cached_get_missing_bucket_witness :
  _cached_get ∅ "states" "bye"
    (counting (λ w : unit, (Raise NotFound, w))) (0, tt) =
    (Raise KeyError, ∅, (1, tt)) ∧
  _cached_get ∅ "states" "bye"
    (counting (λ w : unit, (Raise ValueError, w))) (0, tt) =
    (Raise ValueError, ∅, (1, tt)).
Proof.
  split.
  - destruct (cached_get_missing_bucket (W := unit) ∅ "states" "bye"
                (λ w, (Raise NotFound, w)) tt 0)
      as (e & Hget & _ & _ & Hnf & _); [reflexivity|].
    rewrite Hget, (Hnf eq_refl). reflexivity.
  - destruct (cached_get_missing_bucket (W := unit) ∅ "states" "bye"
                (λ w, (Raise ValueError, w)) tt 0)
      as (e & Hget & _ & _ & _ & Hother); [reflexivity|].
    rewrite Hget, (Hother ValueError eq_refl); [reflexivity|done|done].
Defined.

Lemma cached_entry_insert (cache : cache_t) ck an r bucket ck' an' :
  cache !! ck = Some bucket →
  cached_entry (<[ck := <[an := r]> bucket]> cache) ck' an' =
  if decide (ck' = ck ∧ an' = an) then Some r else cached_entry cache ck' an'.
Proof.
  intros Hck. unfold cached_entry.
  destruct (decide (ck' = ck)) as [->|Hk].
  - rewrite lookup_insert_eq, Hck. simpl.
    destruct (decide (an' = an)) as [->|Ha].
    + rewrite lookup_insert_eq. by rewrite decide_True.
    + rewrite lookup_insert_ne by done. rewrite decide_False by tauto. done.
  - rewrite lookup_insert_ne by done. rewrite decide_False by tauto. done.
Qed.

(** On a miss in an existing bucket with a fetch that returns [v], the
    call returns [(v, True)], has invoked the fetch exactly once, and the
    cache afterwards differs from the one before in that one entry only. *)
Theorem cached_get_miss_stores_one_entry {W} (cache : cache_t) ck an
    (fetch : W → outcome pyval * W) w n v w' :
  is_Some (cache !! ck) →
  cached_entry cache ck an = None →
  fetch w = (Ok v, w') →
  ∃ cache',
    _cached_get cache ck an (counting fetch) (n, w) =
      (Ok (v, true), cache', (S n, w')) ∧
    ∀ ck' an',
      cached_entry cache' ck' an' =
      if decide (ck' = ck ∧ an' = an) then Some (v, true)
      else cached_entry cache ck' an'.
Proof.
  intros [bucket Hck] Hmiss Hfetch. unfold cached_entry in Hmiss.
  unfold _cached_get, counting. rewrite Hmiss, Hfetch, Hck.
  eexists. split; [done|]. intros ck' an'. by apply cached_entry_insert.
Qed.

Lemma cached_get_miss_stores_one_entry_witness :
  ∃ cache',
    _cached_get fresh_cache "states" "bye"
      (counting (λ w : unit, (Ok (VStr "SUCCESS"), w))) (0, tt) =
      (Ok (VStr "SUCCESS", true), cache', (1, tt)) ∧
    ∀ ck' an',
      cached_entry cache' ck' an' =
      if decide (ck' = "states" ∧ an' = "bye")
      then Some (VStr "SUCCESS", true)
      else cached_entry fresh_cache ck' an'.
Proof.
  refine (cached_get_miss_stores_one_entry (W := unit) fresh_cache "states"
            "bye" (λ w, (Ok (VStr "SUCCESS"), w)) tt 0 (VStr "SUCCESS") tt
            _ _ _).
  - exists ∅. reflexivity.
  - reflexivity.
  - reflexivity.
Defined.

Lemma cached_get_preserves {W} (cache : cache_t) ck an
    (fetch : W → outcome pyval * W) w :
  (∀ ck0 an0 r0,
     cached_entry cache ck0 an0 = Some r0 →
     cached_entry (_cached_get cache ck an fetch w).1.2 ck0 an0 = Some r0) ∧
  dom (_cached_get cache ck an fetch w).1.2 = dom cache.
Proof.
  unfold _cached_get.
  destruct (cache !! ck ≫= _) as [[v f]|] eqn:Hhit; [done|].
  assert (∀ (v : pyval) (f : bool) (w' : W),
    let res := match cache !! ck with
               | Some bucket =>
                   (Ok (v, f), <[ck := <[an := (v, f)]> bucket]> cache, w')
               | None => (Raise KeyError, cache, w')
               end in
    (∀ ck0 an0 r0, cached_entry cache ck0 an0 = Some r0 →
                   cached_entry res.1.2 ck0 an0 = Some r0) ∧
    dom res.1.2 = dom cache) as Hstore.
  { intros v f w'. destruct (cache !! ck) as [bucket|] eqn:Hck; [|done].
    simpl. split.
    - intros ck0 an0 r0 Hr0. rewrite (cached_entry_insert _ _ _ _ _ _ _ Hck).
      case_decide as Heq; [|done]. destruct Heq as [-> ->].
      unfold cached_entry in Hr0. congruence.
    - rewrite dom_insert_L. apply elem_of_dom_2 in Hck.
      apply set_eq. intros x. rewrite elem_of_union, elem_of_singleton.
      split; [intros [->|?]; done|by right]. }
  destruct (fetch w) as [[v|e] w']; [apply Hstore|].
  destruct e; try done; apply Hstore.
Qed.

(** Whatever a call does, returning or raising, it neither drops nor
    changes an entry the cache held, and adds no bucket. *)
Theorem cached_get_keeps_entries {W} (cache : cache_t) ck an
    (fetch : W → outcome pyval * W) w :
  (∀ ck0 an0 r0,
     cached_entry cache ck0 an0 = Some r0 →
     cached_entry (_cached_get cache ck an fetch w).1.2 ck0 an0 = Some r0) ∧
  dom (_cached_get cache ck an fetch w).1.2 = dom cache.
Proof. exact (cached_get_preserves cache ck an fetch w). Qed.

(** *** [_format_node] *)

Lemma cached_hit ck an fetch (cache : cache_t) log r :
  cached_entry cache ck an = Some r →
  cached ck an fetch (cache, log) = (Ok r, (cache, log)).
Proof.
  intros Hr. unfold cached.
  by rewrite (cached_get_hit cache ck an fetch log r Hr).
Qed.

Lemma cached_Ok ck an fetch (cache : cache_t) log r cache' log' :
  cached ck an fetch (cache, log) = (Ok r, (cache', log')) →
  cached_entry cache' ck an = Some r ∧
  ∀ ck0 an0 r0, cached_entry cache ck0 an0 = Some r0 →
                cached_entry cache' ck0 an0 = Some r0.
Proof.
  unfold cached.
  destruct (_cached_get cache ck an fetch log) as [[r1 c1] l1] eqn:Hget.
  intros [= -> -> ->]. split.
  - by eapply cached_get_stores.
  - intros ck0 an0 r0 Hr0.
    pose proof (proj1 (cached_get_preserves cache ck an fetch log)
                  ck0 an0 r0 Hr0) as Hkeep.
    by rewrite Hget in Hkeep.
Qed.

(** Once [_format_node] has formatted a node, formatting it again on the
    resulting cache gives the same text without a single storage call and
    without touching the cache, whatever storage it is given. *)
Theorem format_node_memoized str_dict self st nd (cache : cache_t) log
    text cache' log' :
  _format_node str_dict self st nd (cache, log) = (Ok text, (cache', log')) →
  ∀ st2 log2,
    _format_node str_dict self st2 nd (cache', log2) =
      (Ok text, (cache', log2)).
Proof.
  unfold _format_node, _format_node_attrs, fmt_bind, fmt_ret.
  destruct (cached "intentions" _ _ _) as [[[i fi]|e] [c1 l1]] eqn:H1; [|done].
  apply cached_Ok in H1 as [E1 K1].
  destruct (cached "states" _ _ _) as [[[s fs]|e] [c2 l2]] eqn:H2; [|done].
  apply cached_Ok in H2 as [E2 K2].
  destruct (decide (name (item nd) ∈ _hide_inputs_outputs_of self)).
  - intros Hres st2 log2.
    assert (c2 = cache') as ->.
    { destruct (if fs then _ else _); by injection Hres. }
    rewrite (cached_hit _ _ _ _ _ _ (K2 _ _ _ E1)).
    rewrite (cached_hit _ _ _ _ _ _ E2).
    destruct (if fs then _ else _); by injection Hres as <-.
  - destruct (cached "requires" _ _ _) as [[[r fr]|e] [c3 l3]] eqn:H3; [|done].
    apply cached_Ok in H3 as [E3 K3].
    destruct (cached "provides" _ _ _) as [[[p fp]|e] [c4 l4]] eqn:H4; [|done].
    apply cached_Ok in H4 as [E4 K4].
    intros Hres st2 log2.
    assert (c4 = cache') as ->.
    { destruct (if fp then _ else _); by injection Hres. }
    rewrite (cached_hit _ _ _ _ _ _ (K4 _ _ _ (K3 _ _ _ (K2 _ _ _ E1)))).
    rewrite (cached_hit _ _ _ _ _ _ (K4 _ _ _ (K3 _ _ _ E2))).
    rewrite (cached_hit _ _ _ _ _ _ (K4 _ _ _ E3)).
    rewrite (cached_hit _ _ _ _ _ _ E4).
    destruct (if fp then _ else _); by injection Hres as <-.
Qed.

End formatters_extra.

Module formatters_extra2.
Import formatters formatters_examples formatters_examples2.
Import formatters_proofs formatters_extra.

Lemma format_node_memoized_witness :
  _format_node show_keys no_hide storage_down bye_node
    (formatted_once.2.1, []) =
  (Ok "Atom 'bye' intention state requires provides ",
   (formatted_once.2.1, [])).
Proof.
  refine (format_node_memoized show_keys no_hide storage_a bye_node
            fresh_cache [] "Atom 'bye' intention state requires provides "
            formatted_once.2.1 formatted_once.2.2 _ storage_down []).
  vm_compute. reflexivity.
Defined.

(** The storage calls of one [_format_node] are calls for that node's own
    atom, at most one of each kind, in the order intention, state, mapped
    arguments, execute result. *)
Theorem format_node_calls_own_atom str_dict self st nd (cache : cache_t) log :
  ∃ calls,
    (_format_node str_dict self st nd (cache, log)).2.2 = log ++ calls ∧
    sublist calls (node_calls (name (item nd))).
Proof.
  unfold _format_node, _format_node_attrs, fmt_bind, fmt_ret, node_calls.
  set (n := name (item nd)).
  set (ci := Call_get_atom_intention n). set (cs := Call_get_atom_state n).
  set (cr := Call_fetch_mapped_args n). set (cp := Call_get_execute_result n).
  assert (∀ (c : call) (calls : list call),
            (calls = [] ∨ calls = [c]) → sublist calls [c]) as Hone.
  { intros c calls [-> | ->]; [apply sublist_nil_l|done]. }
  destruct (cached_storage_call_log "intentions" n ci
              (get_atom_intention st n) cache log)
    as (r1 & c1 & k1 & -> & Hk1%Hone).
  destruct r1 as [[i fi]|e].
  2:{ exists k1. split; [done|].
      by apply (sublist_inserts_r [cs; cr; cp] k1 [ci]). }
  destruct (cached_storage_call_log "states" n cs
              (get_atom_state st n) c1 (log ++ k1))
    as (r2 & c2 & k2 & -> & Hk2%Hone).
  rewrite <-(assoc_L (++)).
  assert (sublist (k1 ++ k2) [ci; cs]) as H12
    by by apply (sublist_app k1 [ci] k2 [cs]).
  destruct r2 as [[s fs]|e].
  2:{ exists (k1 ++ k2). split; [done|].
      by apply (sublist_inserts_r [cr; cp] (k1 ++ k2) [ci; cs]). }
  destruct (decide (n ∈ _hide_inputs_outputs_of self)).
  { exists (k1 ++ k2). split.
    - by destruct (if fs then _ else _).
    - by apply (sublist_inserts_r [cr; cp] (k1 ++ k2) [ci; cs]). }
  destruct (cached_storage_call_log "requires" n cr
              (fetch_mapped_args st (rebind (item nd)) n (optional (item nd)))
              c2 (log ++ k1 ++ k2))
    as (r3 & c3 & k3 & -> & Hk3%Hone).
  rewrite <-!(assoc_L (++)).
  assert (sublist (k1 ++ k2 ++ k3) [ci; cs; cr]) as H123.
  { rewrite (assoc_L (++)). by apply (sublist_app (k1 ++ k2) [ci; cs] k3 [cr]). }
  destruct r3 as [[r fr]|e].
  2:{ exists (k1 ++ k2 ++ k3). split; [done|].
      by apply (sublist_inserts_r [cp] (k1 ++ k2 ++ k3) [ci; cs; cr]). }
  destruct (cached_storage_call_log "provides" n cp
              (get_execute_result st n) c3 (log ++ k1 ++ k2 ++ k3))
    as (r4 & c4 & k4 & -> & Hk4%Hone).
  rewrite <-!(assoc_L (++)).
  exists (k1 ++ k2 ++ k3 ++ k4). split.
  - destruct r4 as [[p fp]|e]; [|done]. by destruct (if fp then _ else _).
  - rewrite !(assoc_L (++)).
    apply (sublist_app ((k1 ++ k2) ++ k3) [ci; cs; cr] k4 [cp]); [|done].
    by rewrite <-(assoc_L (++)).
Qed.

End formatters_extra2.

Module formatters_extra3.
Import formatters formatters_examples formatters_examples2.
Import formatters_examples3 formatters_proofs formatters_extra.

Lemma cached_negative ck an c r (cache : cache_t) log :
  is_Some (cache !! ck) →
  cached_entry cache ck an = None →
  read_fails r →
  ∃ cache',
    cached ck an (storage_call c r) (cache, log) =
      (Ok (VNone, false), (cache', log ++ [c])) ∧
    (∀ ck' an',
       cached_entry cache' ck' an' =
       if decide (ck' = ck ∧ an' = an) then Some (VNone, false)
       else cached_entry cache ck' an') ∧
    (∀ ck', is_Some (cache !! ck') → is_Some (cache' !! ck')).
Proof.
  intros [bucket Hck] Hmiss Hr. unfold cached_entry in Hmiss.
  unfold cached, _cached_get, storage_call. rewrite Hmiss, Hck.
  exists (<[ck := <[an := (VNone, false)]> bucket]> cache). split_and!.
  - by destruct Hr as [-> | ->].
  - intros ck' an'. by apply cached_entry_insert.
  - intros ck' Hck'. destruct (decide (ck' = ck)) as [->|Hne].
    + rewrite lookup_insert_eq. eauto.
    + by rewrite lookup_insert_ne.
Qed.

(** When nothing is cached for the atom and every storage read for it
    fails with [StorageFailure] or [NotFound], [_format_node] does not
    raise: it returns the bare text [Atom 'name'] with no attributes, and
    leaves a negative entry for each value it tried to read. *)
Theorem format_node_all_reads_fail str_dict self st nd (cache : cache_t) log :
  nothing_cached cache (name (item nd)) →
  read_fails (get_atom_intention st (name (item nd))) →
  read_fails (get_atom_state st (name (item nd))) →
  read_fails (fetch_mapped_args st (rebind (item nd)) (name (item nd))
                (optional (item nd))) →
  read_fails (get_execute_result st (name (item nd))) →
  ∃ cache' calls,
    _format_node str_dict self st nd (cache, log) =
      (Ok ("Atom '" +:+ name (item nd) +:+ "'"), (cache', log ++ calls)) ∧
    cached_entry cache' "intentions" (name (item nd)) = Some (VNone, false) ∧
    cached_entry cache' "states" (name (item nd)) = Some (VNone, false) ∧
    (name (item nd) ∉ _hide_inputs_outputs_of self →
     cached_entry cache' "requires" (name (item nd)) = Some (VNone, false) ∧
     cached_entry cache' "provides" (name (item nd)) = Some (VNone, false)).
Proof.
  set (n := name (item nd)).
  intros Hnothing Hi Hs Hr Hp. unfold nothing_cached in Hnothing.
  apply Forall_cons in Hnothing as [[Bi Mi] Hnothing].
  apply Forall_cons in Hnothing as [[Bs Ms] Hnothing].
  apply Forall_cons in Hnothing as [[Br Mr] Hnothing].
  apply Forall_cons in Hnothing as [[Bp Mp] _].
  unfold _format_node, _format_node_attrs, fmt_bind, fmt_ret. fold n.
  destruct (cached_negative "intentions" n (Call_get_atom_intention n)
              (get_atom_intention st n) cache log Bi Mi Hi)
    as (c1 & -> & E1 & D1).
  assert (cached_entry c1 "states" n = None) as M2.
  { rewrite E1. by rewrite decide_False by (by intros [[=] _]). }
  destruct (cached_negative "states" n (Call_get_atom_state n)
              (get_atom_state st n) c1 (log ++ [Call_get_atom_intention n])
              (D1 _ Bs) M2 Hs) as (c2 & -> & E2 & D2).
  destruct (decide (n ∈ _hide_inputs_outputs_of self)) as [Hh|Hh].
  { exists c2, [Call_get_atom_intention n; Call_get_atom_state n].
    rewrite <-(assoc_L (++)).
    split_and!; [done| |by rewrite E2, decide_True|done].
    rewrite E2, decide_False by (by intros [[=] _]).
    by rewrite E1, decide_True. }
  assert (cached_entry c2 "requires" n = None) as M3.
  { rewrite E2, decide_False by (by intros [[=] _]).
    rewrite E1. by rewrite decide_False by (by intros [[=] _]). }
  destruct (cached_negative "requires" n (Call_fetch_mapped_args n)
              (fetch_mapped_args st (rebind (item nd)) n (optional (item nd)))
              c2 ((log ++ [Call_get_atom_intention n]) ++
                  [Call_get_atom_state n])
              (D2 _ (D1 _ Br)) M3 Hr) as (c3 & -> & E3 & D3).
  assert (cached_entry c3 "provides" n = None) as M4.
  { rewrite E3, decide_False by (by intros [[=] _]).
    rewrite E2, decide_False by (by intros [[=] _]).
    rewrite E1. by rewrite decide_False by (by intros [[=] _]). }
  destruct (cached_negative "provides" n (Call_get_execute_result n)
              (get_execute_result st n) c3
              (((log ++ [Call_get_atom_intention n]) ++
                [Call_get_atom_state n]) ++ [Call_fetch_mapped_args n])
              (D3 _ (D2 _ (D1 _ Bp))) M4 Hp) as (c4 & -> & E4 & D4).
  exists c4, (node_calls n). unfold node_calls.
  rewrite <-!(assoc_L (++)). split_and!; [done| | |intros _; split].
  - rewrite E4, decide_False by (by intros [[=] _]).
    rewrite E3, decide_False by (by intros [[=] _]).
    rewrite E2, decide_False by (by intros [[=] _]).
    by rewrite E1, decide_True.
  - rewrite E4, decide_False by (by intros [[=] _]).
    rewrite E3, decide_False by (by intros [[=] _]).
    by rewrite E2, decide_True.
  - rewrite E4, decide_False by (by intros [[=] _]).
    by rewrite E3, decide_True.
  - by rewrite E4, decide_True.
Qed.

Lemma format_node_all_reads_fail_witness :
  ∃ cache' calls,
    _format_node show_keys no_hide storage_down bye_node (fresh_cache, []) =
      (Ok "Atom 'bye'", (cache', [] ++ calls)) ∧
    cached_entry cache' "intentions" "bye" = Some (VNone, false) ∧
    cached_entry cache' "states" "bye" = Some (VNone, false) ∧
    ("bye" ∉ [] →
     cached_entry cache' "requires" "bye" = Some (VNone, false) ∧
     cached_entry cache' "provides" "bye" = Some (VNone, false)).
Proof.
  refine (format_node_all_reads_fail show_keys no_hide storage_down bye_node
            fresh_cache [] _ _ _ _ _).
  - repeat constructor; by eexists.
  - by right.
  - by left.
  - by right.
  - by left.
Defined.

End formatters_extra3.

Module formatters_tree_proofs.
Import formatters formatters_tree formatters_proofs.

Section tree_soundness.
Context `{Countable A}.
Implicit Types (g : gmap A (list A)) (h : list (node A)) (seen : gset A).

Lemma holds_valid h c x : holds h c x → c < length h.
Proof. intros (nd & Hnd & _). by eapply lookup_lt_Some. Qed.

Lemma holds_functional h c x y : holds h c x → holds h c y → x = y.
Proof. intros (nd & Hnd & <-) (nd' & Hnd' & <-). congruence. Qed.

(** A node of the store after [parent.add(child)] of a fresh child. *)
Lemma add_child_lookup h t (p : A) i nd :
  t < length h →
  add t (length h) (h ++ [Node p []]) !! i = Some nd →
  (∃ nd0, h !! i = Some nd0 ∧ item nd = item nd0 ∧
          (children nd = children nd0 ∨
           i = t ∧ children nd = children nd0 ++ [length h])) ∨
  (i = length h ∧ nd = Node p []).
Proof.
  intros Ht. unfold add. destruct (decide (t = i)) as [->|Hne].
  - rewrite list_lookup_alter_eq, lookup_app_l by done.
    destruct (h !! i) as [nd0|] eqn:Hi; [|done].
    intros [= <-]. left. exists nd0. split_and!; [done|done|by right].
  - rewrite list_lookup_alter_ne by done.
    intros [Hi|[Hlen Hi]]%lookup_app_Some.
    + left. exists nd. split_and!; [done|done|by left].
    + right. apply list_lookup_singleton_Some in Hi as [Hi <-].
      split; [lia|done].
Qed.

Lemma add_child_items h t (p : A) :
  item <$> add t (length h) (h ++ [Node p []]) = (item <$> h) ++ [p].
Proof.
  unfold add. rewrite (list_fmap_alter item _ id).
  - rewrite fmap_app. simpl. by apply list_alter_id.
  - by apply Forall_forall.
Qed.

(** One predecessor visited. *)
Lemma visit_pred_inv g t n p h stack seen :
  tree_inv g h stack seen → holds h t n → edge g n p →
  tree_inv g (add t (length h) (h ++ [Node p []]))
           ((length h, p) :: stack) ({[p]} ∪ seen) ∧
  holds (add t (length h) (h ++ [Node p []])) t n.
Proof.
  intros (Hlen & Hstack & Hedges & Hrefs & Htree & Hseen) Ht Hnp.
  pose proof (holds_valid _ _ _ Ht) as Hvalid.
  pose proof (add_child_heap_le h t p) as Hle.
  set (h1 := add t (length h) (h ++ [Node p []])) in *.
  assert (length h1 = S (length h)) as Hlen1.
  { unfold h1, add. rewrite length_alter, length_app. simpl. lia. }
  assert (∀ c y, holds h1 c y →
            holds h c y ∨ (c = length h ∧ y = p)) as Hholds1.
  { intros c y (nd & Hnd & <-).
    apply add_child_lookup in Hnd as [(nd0 & Hnd0 & Hitem & _)|[-> ->]];
      [|by right|done].
    left. rewrite Hitem. by exists nd0. }
  assert (∀ t' c, child_of h1 t' c →
            child_of h t' c ∨ (t' = t ∧ c = length h)) as Hchild1.
  { intros t' c (nd & Hnd & Hc).
    apply add_child_lookup in Hnd
      as [(nd0 & Hnd0 & _ & [Hch|[-> Hch]])|[-> ->]]; [| | |done].
    - left. exists nd0. by rewrite <-Hch.
    - rewrite Hch in Hc. apply elem_of_app in Hc as [Hc|Hc].
      + left. by exists nd0.
      + right. by apply list_elem_of_singleton in Hc.
    - by apply elem_of_nil in Hc. }
  split; [|by eapply holds_mono].
  split_and!.
  - lia.
  - constructor.
    + by apply add_child_holds.
    + eapply Forall_impl; [done|]. intros e He. by eapply holds_mono.
  - intros t' c x y [Hc|[-> ->]]%Hchild1 Hx Hy.
    + destruct (Hrefs _ _ Hc) as [_ Hcvalid].
      apply Hholds1 in Hy as [Hy|[-> _]]; [|lia].
      apply Hholds1 in Hx as [Hx|[-> _]].
      * by eapply Hedges.
      * destruct Hc as (nd & Hnd & _). apply lookup_lt_Some in Hnd. lia.
    + apply Hholds1 in Hy as [Hy%holds_valid|[_ ->]]; [lia|].
      apply Hholds1 in Hx as [Hx|[-> _]]; [|lia].
      by rewrite (holds_functional _ _ _ _ Hx Ht).
  - intros t' c [Hc%Hrefs|[-> ->]]%Hchild1; lia.
  - intros c Hc. destruct (decide (c = length h)) as [->|Hne].
    + eapply in_tree_child.
      * eapply in_tree_mono; [done|]. by apply Htree.
      * by apply add_child_child_of.
    + eapply in_tree_mono; [done|]. apply Htree. lia.
  - intros q Hq. unfold h1. rewrite add_child_items.
    rewrite drop_app_le by (rewrite length_fmap; lia).
    apply elem_of_app. apply elem_of_union in Hq as [->%elem_of_singleton|Hq].
    + right. by apply list_elem_of_singleton.
    + left. by apply Hseen.
Qed.

(** The inner loop. *)
Lemma foldl_visit_pred_inv g t n preds : ∀ h stack seen,
  tree_inv g h stack seen → holds h t n → Forall (edge g n) preds →
  ∃ h1 stack1 seen1,
    foldl (visit_pred t) (h, stack, seen) preds = (h1, stack1, seen1) ∧
    tree_inv g h1 stack1 seen1.
Proof.
  induction preds as [|p preds IH]; intros h stack seen Hinv Ht Hpreds.
  { by exists h, stack, seen. }
  apply Forall_cons in Hpreds as [Hp Hpreds].
  destruct (visit_pred_inv g t n p h stack seen Hinv Ht Hp) as [Hinv1 Ht1].
  simpl. by apply IH.
Qed.

(** The walk. *)
Lemma walk_inv g fuel : ∀ h stack seen h' seen',
  tree_inv g h stack seen →
  walk fuel g (h, stack, seen) = Some (Ok (h', seen')) →
  tree_inv g h' [] seen'.
Proof.
  induction fuel as [|fuel IH]; intros h stack seen h' seen' Hinv;
    destruct stack as [|[t n] stack]; simpl.
  - by intros [= <- <-].
  - done.
  - by intros [= <- <-].
  - unfold predecessors_iter.
    destruct (g !! n) as [preds|] eqn:Hn; [|done].
    destruct Hinv as (Hlen & [Ht Hstack]%Forall_cons & Hrest).
    destruct (foldl_visit_pred_inv g t n preds h stack seen)
      as (h1 & stack1 & seen1 & -> & Hinv1); [done|done| |by apply IH].
    apply Forall_forall. intros p Hp. by exists preds.
Qed.

End tree_soundness.

(** The tree that [_fetch_predecessor_tree] returns mirrors the graph:
    each child carries a direct predecessor of its parent's atom; every
    node of the store is in the tree, the root carrying the atom and
    every other node a transitive predecessor of it; and the count is
    smaller than the number of nodes, shared predecessors being counted
    once and hung once per path. *)
Theorem fetch_predecessor_tree_mirrors_graph `{Countable A}
    (g : gmap A (list A)) (a : A) :
  graph_closed g → acyclic g → is_Some (g !! a) →
  ∃ k count root h,
    (∀ fuel, k ≤ fuel →
       _fetch_predecessor_tree fuel g a = Some (Ok (count, root, h))) ∧
    (∀ t c x y, child_of h t c → holds h t x → holds h c y → edge g x y) ∧
    (∀ c y, holds h c y →
       in_tree h root c ∧
       (c = root ∧ y = a ∨ c ≠ root ∧ tc (edge g) a y)) ∧
    count < length h.
Proof.
  intros Hclosed Hacyclic Ha.
  destruct (walk_from_root g a Hclosed Hacyclic Ha)
    as (k & h & seen & Hwalk & Hroot & _ & _).
  assert (tree_inv g h [] seen)
    as (Hlen & _ & Hedges & Hrefs & Htree & Hseen).
  { eapply (walk_inv g k); [|by apply Hwalk]. split_and!.
    - simpl. lia.
    - constructor; [|done]. by exists (Node a []).
    - intros t c x y (nd & Hnd & Hc).
      apply list_lookup_singleton_Some in Hnd as [_ <-].
      by apply elem_of_nil in Hc.
    - intros t c (nd & Hnd & Hc).
      apply list_lookup_singleton_Some in Hnd as [_ <-].
      by apply elem_of_nil in Hc.
    - intros c Hc. simpl in Hc. replace c with 0 by lia. constructor.
    - intros q Hq. by apply elem_of_empty in Hq. }
  exists k, (size seen), 0, h. split_and!.
  - intros fuel Hfuel. unfold _fetch_predecessor_tree.
    by rewrite (Hwalk fuel Hfuel).
  - done.
  - intros c y Hy. pose proof (Htree c (holds_valid _ _ _ Hy)) as Hc.
    split; [done|]. revert y Hy.
    induction Hc as [|t c Ht IH Hchild]; intros y Hy.
    + left. split; [done|]. by eapply holds_functional.
    + right. destruct (Hrefs _ _ Hchild) as [Hpos _]. split; [lia|].
      destruct Hchild as (nd & Hnd & Hin).
      assert (holds h t (item nd)) as Hx by by exists nd.
      assert (edge g (item nd) y) as Hedge.
      { eapply Hedges; [|done..]. by exists nd. }
      destruct (IH _ Hx) as [[_ Heq]|[_ Hanc]].
      * rewrite Heq in Hedge. by apply tc_once.
      * eapply tc_r; done.
  - assert (length (elements seen) ≤ length (drop 1 (item <$> h))) as Hle.
    { apply submseteq_length, NoDup_submseteq; [apply NoDup_elements|].
      intros q Hq%elem_of_elements. by apply Hseen. }
    rewrite length_drop, length_fmap in Hle.
    unfold size, set_size. simpl. lia.
Qed.

Lemma fetch_predecessor_tree_mirrors_graph_witness :
  ∃ k count root h,
    (∀ fuel, k ≤ fuel →
       _fetch_predecessor_tree fuel diamond 3 = Some (Ok (count, root, h))) ∧
    (∀ t c x y, child_of h t c → holds h t x → holds h c y →
                edge diamond x y) ∧
    (∀ c y, holds h c y →
       in_tree h root c ∧
       (c = root ∧ y = 3 ∨ c ≠ root ∧ tc (edge diamond) 3 y)) ∧
    count < length h.
Proof.
  apply (fetch_predecessor_tree_mirrors_graph diamond 3).
  - apply graph_closedb_correct. vm_compute. reflexivity.
  - apply (ranked_acyclic id). vm_compute. reflexivity.
  - exists [1; 2]. vm_compute. reflexivity.
Defined.

End formatters_tree_proofs.

Module test_extra.
Import test test_matchers test_proofs.

(** [assertIsSuperAndSubsequence] either returns or raises
    [AssertionError]: the [ValueError] of [list.index] never escapes. *)
Theorem assertIsSuperAndSubsequence_only_assertion_error {A} `{EqDecision A}
    (super_seq sub_seq : list A) :
  assertIsSuperAndSubsequence super_seq sub_seq = Ok tt ∨
  assertIsSuperAndSubsequence super_seq sub_seq = Raise AssertionError.
Proof.
  unfold assertIsSuperAndSubsequence. revert super_seq.
  induction sub_seq as [|x sub IH]; intros tail; simpl; [by left|].
  destruct (index x tail) as [i|e] eqn:Hi; [apply IH|].
  apply index_Raise in Hi as [-> _]. by right.
Qed.

(** Passing checks compose: a subsequence of a subsequence passes, and a
    check that passes still passes when the super sequence gets elements
    added in front and behind. *)
Theorem assertIsSuperAndSubsequence_composes {A} `{EqDecision A}
    (s1 s2 s3 before behind : list A) :
  assertIsSuperAndSubsequence s1 s2 = Ok tt →
  assertIsSuperAndSubsequence s2 s3 = Ok tt →
  assertIsSuperAndSubsequence s1 s3 = Ok tt ∧
  assertIsSuperAndSubsequence (before ++ s1 ++ behind) s2 = Ok tt.
Proof.
  unfold assertIsSuperAndSubsequence.
  intros H12%subsequence_loop_sound H23%subsequence_loop_sound. split.
  - apply subsequence_loop_complete. by etrans.
  - apply subsequence_loop_complete.
    by apply sublist_inserts_l, sublist_inserts_r.
Qed.

Lemma assertIsSuperAndSubsequence_composes_witness :
  assertIsSuperAndSubsequence [1; 2; 3; 4] [4] = Ok tt ∧
  assertIsSuperAndSubsequence ([0] ++ [1; 2; 3; 4] ++ [5]) [2; 4] = Ok tt.
Proof.
  apply (assertIsSuperAndSubsequence_composes [1; 2; 3; 4] [2; 4] [4]
           [0] [5]); reflexivity.
Defined.

Lemma match_causes_None check regex exc_class pattern failure_str causes :
  match_causes check regex exc_class pattern failure_str causes = None ↔
  ∃ before cause behind,
    causes = before ++ cause :: behind ∧
    Forall (λ c, check c exc_class = false) before ∧
    check cause exc_class = true ∧
    regex pattern (exception_str cause) = None.
Proof.
  induction causes as [|c causes IH]; simpl.
  { split; [done|]. intros (before & cause & behind & Heq & _).
    by destruct before. }
  destruct (check c exc_class) eqn:Hc.
  - split.
    + intros Hr. exists [], c, causes. by split_and!.
    + intros ([|b before] & cause & behind & Heq & Hbefore & Hcause & Hr).
      * by injection Heq as <- <-.
      * injection Heq as <- _. apply Forall_cons in Hbefore as [Hb _].
        congruence.
  - rewrite IH. split.
    + intros (before & cause & behind & -> & Hbefore & Hcause & Hr).
      exists (c :: before), cause, behind. split_and!; [done| |done|done].
      by constructor.
    + intros ([|b before] & cause & behind & Heq & Hbefore & Hcause & Hr).
      * injection Heq as <- _. congruence.
      * injection Heq as <- ->. apply Forall_cons in Hbefore as [_ Hbefore].
        by exists before, cause, behind.
Qed.

(** [assertFailuresRegexp] passes exactly when the callable raised
    nothing at all, or raised a wrapped failure whose first cause of the
    given class has a text matching the pattern; causes after that one are
    not looked at. *)
Theorem assertFailuresRegexp_passes_iff check regex exc_class pattern
    failure_str wrapped_call :
  assertFailuresRegexp check regex exc_class pattern failure_str wrapped_call
    = Ok tt ↔
  wrapped_call = Ok tt ∨
  ∃ before cause behind,
    wrapped_call = Raise (WrappedFailure (before ++ cause :: behind)) ∧
    Forall (λ c, check c exc_class = false) before ∧
    check cause exc_class = true ∧
    regex pattern (exception_str cause) = None.
Proof.
  unfold assertFailuresRegexp, assertThat, FailureRegexpMatcher_match.
  destruct wrapped_call as [[]|e].
  { split; [by left|done]. }
  assert (∀ e', (∀ causes, e' ≠ WrappedFailure causes) →
            @Raise unit e' = Ok tt ↔
            @Raise unit e' = Ok tt ∨
            ∃ before cause behind,
              @Raise unit e' =
                Raise (WrappedFailure (before ++ cause :: behind)) ∧
              Forall (λ c, check c exc_class = false) before ∧
              check cause exc_class = true ∧
              regex pattern (exception_str cause) = None) as Hother.
  { intros e' He'. split; [done|].
    intros [?|(before & cause & behind & [= ->] & _)]; [done|].
    by destruct (He' (before ++ cause :: behind)). }
  destruct e; try (by apply Hother).
  destruct (match_causes check regex exc_class pattern failure_str causes)
    as [m|] eqn:Hm.
  - split; [done|]. intros [?|(before & cause & behind & [= ->] & Hrest)];
      [done|].
    assert (match_causes check regex exc_class pattern failure_str
              (before ++ cause :: behind) = None) as Hnone.
    { apply match_causes_None. by exists before, cause, behind. }
    congruence.
  - split; [|done]. intros _. right.
    apply match_causes_None in Hm as (before & cause & behind & -> & Hrest).
    by exists before, cause, behind.
Qed.

(** A later cause that would match does not rescue an earlier cause of the
    class that does not. *)
Example assertFailuresRegexp_first_cause :
  assertFailuresRegexp check_by_name regex_prefix "ValueError" "bad" "wf"
    (Raise (WrappedFailure [Failure "ValueError" "worse";
                            Failure "ValueError" "bad input"])) =
  Raise AssertionError.
Proof. reflexivity. Qed.

Lemma lower_char_fixed c : lower_char c = c ↔ is_upper c = false.
Proof.
  unfold lower_char. destruct (is_upper c) eqn:Hu; [|done].
  split; [|done]. intros Heq.
  apply (f_equal nat_of_ascii) in Heq.
  unfold is_upper in Hu. apply andb_prop in Hu as [_ Hle%Nat.leb_le].
  rewrite nat_ascii_embedding in Heq by lia. lia.
Qed.

Lemma lower_fixed s : ascii_lower s = s ↔ has_upper s = false.
Proof.
  induction s as [|c s IH]; simpl; [done|].
  rewrite orb_false_iff, <-IH, <-lower_char_fixed. split.
  - by intros [= -> ->].
  - by intros [-> ->].
Qed.

Lemma length_append_class s : String.length (s +:+ "_class") = String.length s + 6.
Proof. induction s as [|c s IH]; simpl; [done|]. by rewrite IH. Qed.

(** [_patch_class] attaches the class mock and the instance mock under
    different names whenever [attach_as] is given; without [attach_as],
    and for a [name] of ASCII characters, the two names coincide exactly
    when [name] has no upper-case letter. *)
Theorem patch_class_names_distinct str_lower name attach_as :
  (attach_names str_lower name (Some attach_as)).1 ≠
    (attach_names str_lower name (Some attach_as)).2 ∧
  (lowers_ascii str_lower → is_ascii name = true →
   ((attach_names str_lower name None).1 =
      (attach_names str_lower name None).2 ↔
    has_upper name = false)).
Proof.
  simpl. split.
  - intros Heq. apply (f_equal String.length) in Heq.
    rewrite length_append_class in Heq. lia.
  - intros Hlow Hascii. rewrite (Hlow name Hascii), <-lower_fixed.
    split; intros Heq; by symmetry.
Qed.

Lemma patch_class_names_distinct_witness :
  (attach_names ascii_lower "worker" None).1 =
    (attach_names ascii_lower "worker" None).2 ↔
  has_upper "worker" = false.
Proof.
  refine (proj2 (patch_class_names_distinct ascii_lower "worker" "w") _ _).
  - intros s _. reflexivity.
  - reflexivity.
Defined.

End test_extra.

Module worker_extra.
Import worker worker_proofs.

Lemma first_refused imp is_task tasks :
  ¬ Forall (λ item, item_error imp is_task item = None) tasks →
  ∃ accepted item rest e,
    tasks = accepted ++ item :: rest ∧
    Forall (λ item, item_error imp is_task item = None) accepted ∧
    item_error imp is_task item = Some e.
Proof.
  induction tasks as [|item tasks IH]; intros Hnot.
  { destruct Hnot. constructor. }
  destruct (item_error imp is_task item) as [e|] eqn:Hitem.
  { exists [], item, tasks, e. by split_and!. }
  destruct IH as (accepted & item' & rest & e & -> & Hacc & Herr).
  { intros Hall. apply Hnot. by constructor. }
  exists (item :: accepted), item', rest, e. split_and!; [done| |done].
  by constructor.
Qed.

Lemma yields_is_task imp is_task item c :
  yields imp is_task item c → is_task c = true.
Proof.
  destruct item as [s|ms|c'|]; simpl.
  - destruct (decide (count_colons s = 1)).
    + by intros [_ ?].
    + by intros (module & _ & ? & _).
  - by intros [? _].
  - by intros [_ ?].
  - done.
Qed.

(** [_derive_endpoints] returns endpoints exactly when every item of the
    list is acceptable, a single refused item anywhere making the whole
    call raise; and every endpoint it returns serves a [BaseTask]
    subclass. *)
Theorem derive_endpoints_ok_iff imp is_task tasks :
  ((∃ eps log, _derive_endpoints imp is_task tasks = (Ok eps, log)) ↔
   Forall (λ item, item_error imp is_task item = None) tasks) ∧
  (∀ eps log,
     _derive_endpoints imp is_task tasks = (Ok eps, log) →
     Forall (λ ep, is_task (task_cls ep) = true) eps).
Proof.
  assert (Forall (λ item, item_error imp is_task item = None) tasks →
          ∃ eps,
            _derive_endpoints imp is_task tasks =
              (Ok eps, tasks ≫= item_imports) ∧
            Forall (λ ep, is_task (task_cls ep) = true) eps) as Hok.
  { intros Hall. unfold _derive_endpoints.
    destruct (derive_items_accepted imp is_task tasks ∅ [] Hall)
      as (derived & -> & Hderived).
    eexists. split; [done|]. apply Forall_forall. intros ep.
    rewrite list_elem_of_fmap. intros (c & -> & Hc%elem_of_elements). simpl.
    apply Hderived in Hc as [[]%elem_of_empty|(item & _ & Hy)].
    by eapply yields_is_task. }
  assert ((∃ eps log, _derive_endpoints imp is_task tasks = (Ok eps, log)) →
          Forall (λ item, item_error imp is_task item = None) tasks)
    as Hall.
  { intros (eps & log & Hcall).
    destruct (decide (Forall (λ item, item_error imp is_task item = None)
                        tasks)) as [?|Hnot]; [done|].
    apply first_refused in Hnot
      as (accepted & item & rest & e & -> & Hacc & Herr).
    unfold _derive_endpoints in Hcall.
    by rewrite (derive_items_refused imp is_task accepted item rest e ∅ []
                  Hacc Herr) in Hcall. }
  split_and!.
  - split; [done|]. intros (eps & Hcall & _)%Hok. eauto.
  - intros eps log Hcall.
    destruct Hok as (eps' & Hcall' & Htasks); [by eauto|].
    rewrite Hcall' in Hcall. by injection Hcall as <- _.
Qed.

Lemma derive_endpoints_ok_iff_witness :
  Forall (λ ep, small_is_task (task_cls ep) = true)
    [{| task_cls := 2 |}; {| task_cls := 3 |}; {| task_cls := 1 |}].
Proof.
  refine (proj2 (derive_endpoints_ok_iff small_importer small_is_task
                   [PStr "m"; PStr "m:T1"; PClass 1;
                    PModule [("x", PClass 3)]]) _
                [ImportModule "m"; ImportClass "m.T1"] _).
  vm_compute. reflexivity.
Defined.

(** The endpoints depend on which items are listed, not on their order or
    on how often each is listed: two acceptable lists with the same items
    give the same endpoints, up to the order in which the set of derived
    tasks is iterated. *)
Theorem derive_endpoints_order_insensitive imp is_task tasks1 tasks2 :
  (∀ item, item ∈ tasks1 ↔ item ∈ tasks2) →
  Forall (λ item, item_error imp is_task item = None) tasks1 →
  ∃ eps1 eps2,
    (_derive_endpoints imp is_task tasks1).1 = Ok eps1 ∧
    (_derive_endpoints imp is_task tasks2).1 = Ok eps2 ∧
    eps1 ≡ₚ eps2.
Proof.
  intros Hsame Hall1.
  assert (Forall (λ item, item_error imp is_task item = None) tasks2)
    as Hall2.
  { rewrite Forall_forall in Hall1. apply Forall_forall.
    intros item Hitem. by apply Hall1, Hsame. }
  unfold _derive_endpoints.
  destruct (derive_items_accepted imp is_task tasks1 ∅ [] Hall1)
    as (derived1 & -> & Hd1).
  destruct (derive_items_accepted imp is_task tasks2 ∅ [] Hall2)
    as (derived2 & -> & Hd2).
  assert (derived1 = derived2) as ->.
  { apply set_eq. intros c. rewrite Hd1, Hd2. split.
    - intros [?|(item & Hitem & ?)]; [by left|right].
      exists item. split; [by apply Hsame|done].
    - intros [?|(item & Hitem & ?)]; [by left|right].
      exists item. split; [by apply Hsame|done]. }
  by eexists _, _.
Qed.

Lemma derive_endpoints_order_insensitive_witness :
  ∃ eps1 eps2,
    (_derive_endpoints small_importer small_is_task
       [PStr "m"; PClass 1]).1 = Ok eps1 ∧
    (_derive_endpoints small_importer small_is_task
       [PClass 1; PStr "m"; PClass 1]).1 = Ok eps2 ∧
    eps1 ≡ₚ eps2.
Proof.
  apply (derive_endpoints_order_insensitive small_importer small_is_task
           [PStr "m"; PClass 1] [PClass 1; PStr "m"; PClass 1]).
  - intros item. rewrite !elem_of_cons, !elem_of_nil. tauto.
  - repeat constructor.
Defined.

End worker_extra.

Module formatters_format_proofs.
Import formatters formatters_examples formatters_format formatters_proofs.

Example format_line_graph :
  format "EXECUTE" show_keys "|" pformat_node 5 hide_bye (Some storage_a)
    (Some line_graph) (Some (Node a2 [])) remote_failure [] =
  Some (Ok (None,
            "Traceback|2 predecessors (most recent atoms first):|  Atom 'a1' intention state requires provides "),
        [Call_get_atom_intention "a2"; Call_get_atom_intention "a1";
         Call_get_atom_state "a1"; Call_fetch_mapped_args "a1";
         Call_get_execute_result "a1"]).
Proof. vm_compute. reflexivity. Qed.

(** The details hold the traceback only, and no tree is built, when the
    engine has no storage or no compilation or no atom matches (then
    storage is not read at all), and when the matched atom has no
    predecessor or its intention is a hashable value other than [EXECUTE]
    (then the one read made is that of its intention). *)
Theorem format_traceback_only EXECUTE str_dict linesep pformat fuel self storage
    compilation atom_node fail log :
  (storage = None ∨ compilation = None ∨ atom_node = None →
   format EXECUTE str_dict linesep pformat fuel self storage compilation atom_node
     fail log =
   Some (Ok (exc_info fail, traceback_text linesep fail), log)) ∧
  (∀ st g nd i,
     storage = Some st → compilation = Some g → atom_node = Some nd →
     get_atom_intention st (name (item nd)) = Ok i →
     in_degree g (item nd) = 0 ∨ in_BUILDERS EXECUTE i = Ok false →
     format EXECUTE str_dict linesep pformat fuel self storage compilation atom_node
       fail log =
     Some (Ok (exc_info fail, traceback_text linesep fail),
           log ++ [Call_get_atom_intention (name (item nd))])).
Proof.
  assert ((match exc_info fail with
           | Some _ => ""
           | None => write_nl linesep "" (pformat_traceback fail)
           end) = traceback_text linesep fail) as Htb.
  { unfold traceback_text, write_nl. by destruct (exc_info fail). }
  split.
  - intros Hnone. unfold format. rewrite Htb.
    destruct storage as [st|]; [|done].
    destruct compilation as [g|]; [|done].
    destruct atom_node as [nd|]; [|done].
    by destruct Hnone as [?|[?|?]].
  - intros st g nd i -> -> -> Hi Hskip. unfold format, storage_call.
    rewrite Htb, Hi.
    destruct Hskip as [-> | ->]; [done|].
    by destruct (_ =? 0).
Qed.

Lemma format_traceback_only_witness :
  format "EXECUTE" show_keys "|" pformat_node 0 hide_bye (Some storage_a)
    (Some line_graph) (Some (Node a0 [])) remote_failure [] =
  Some (Ok (exc_info remote_failure, traceback_text "|" remote_failure),
        [] ++ [Call_get_atom_intention (name (item (Node a0 [])))]).
Proof.
  refine (proj2 (format_traceback_only "EXECUTE" show_keys "|" pformat_node 0 hide_bye
                   (Some storage_a) (Some line_graph) (Some (Node a0 []))
                   remote_failure [])
            storage_a line_graph (Node a0 []) (VStr "EXECUTE") _ _ _ _ _).
  - reflexivity.
  - reflexivity.
  - reflexivity.
  - reflexivity.
  - left. vm_compute. reflexivity.
Defined.

(** [format] reads the intention of the matched atom straight from
    storage, not through the cache: if that read raises, [format] raises
    the same exception, [StorageFailure] and [NotFound] included. *)
Theorem format_intention_failure_propagates EXECUTE str_dict linesep pformat fuel
    self st g nd fail log e :
  get_atom_intention st (name (item nd)) = Raise e →
  format EXECUTE str_dict linesep pformat fuel self (Some st) (Some g) (Some nd)
    fail log =
  Some (Raise e, log ++ [Call_get_atom_intention (name (item nd))]).
Proof. intros He. unfold format, storage_call. by rewrite He. Qed.

Lemma format_intention_failure_propagates_witness :
  format "EXECUTE" show_keys "|" pformat_node 0 hide_bye (Some storage_down)
    (Some line_graph) (Some (Node a2 [])) remote_failure [] =
  Some (Raise NotFound,
        [] ++ [Call_get_atom_intention (name (item (Node a2 [])))]).
Proof.
  refine (format_intention_failure_propagates "EXECUTE" show_keys "|" pformat_node 0
            hide_bye storage_down line_graph (Node a2 []) remote_failure []
            NotFound _).
  reflexivity.
Defined.

Lemma append_assoc (s1 s2 s3 : string) :
  (s1 +:+ s2) +:+ s3 = s1 +:+ s2 +:+ s3.
Proof.
  induction s1 as [|c s1 IH]; [done|].
  change (String c ((s1 +:+ s2) +:+ s3) = String c (s1 +:+ s2 +:+ s3)).
  by rewrite IH.
Qed.

Lemma write_children_extends pformat formatter linesep h child_count
    children : ∀ i buff s buff' s',
  write_children pformat formatter linesep h child_count i children buff s =
    (Ok buff', s') →
  ∃ rest, buff' = buff +:+ rest.
Proof.
  induction children as [|c children IH]; intros i buff s buff' s'; simpl.
  { unfold fmt_ret. intros [= <- <-]. exists "".
    clear. induction buff as [|c buff IH]; [done|].
    change (String c buff = String c (buff +:+ "")). by rewrite <-IH. }
  unfold fmt_bind.
  destruct (pformat formatter "  " h c s) as [[text|e] s1]; [|done].
  intros (rest & ->)%IH. unfold write, write_nl.
  destruct (decide (i = child_count)).
  - exists (text +:+ rest). by rewrite append_assoc.
  - exists (text +:+ linesep +:+ rest). by rewrite !append_assoc.
Qed.

(** For a matched atom with predecessors and intention [EXECUTE], on an
    acyclic graph, [format] comes back once the tree builder has fuel
    enough; when it returns, the details are the traceback followed by a
    header line whose number is the number of distinct transitive
    predecessors of the atom, and [exc_info] is handed back unchanged. *)
Theorem format_header_counts_predecessors EXECUTE str_dict linesep pformat self st g
    nd fail log i :
  graph_closed g → acyclic g →
  in_degree g (item nd) ≠ 0 →
  get_atom_intention st (name (item nd)) = Ok i →
  in_BUILDERS EXECUTE i = Ok true →
  ∃ k (preds : gset atom),
    (∀ p, p ∈ preds ↔ tc (edge g) (item nd) p) ∧
    ∀ fuel, k ≤ fuel →
      ∃ r log',
        format EXECUTE str_dict linesep pformat fuel self (Some st) (Some g)
          (Some nd) fail log = Some (r, log') ∧
        ∀ ei details,
          r = Ok (ei, details) →
          ei = exc_info fail ∧
          ∃ rest,
            details =
              traceback_text linesep fail +:+ pretty (size preds) +:+
              " predecessors (most recent atoms first):" +:+ linesep +:+
              rest.
Proof.
  intros Hclosed Hacyclic Hdeg Hi Hexec.
  assert (is_Some (g !! item nd)) as Ha.
  { unfold in_degree in Hdeg. destruct (g !! item nd); [eauto|done]. }
  destruct (walk_from_root g (item nd) Hclosed Hacyclic Ha)
    as (k & h & seen & Hwalk & _ & Hseen & _).
  exists k, seen. split; [done|]. intros fuel Hfuel.
  unfold format, storage_call, _fetch_predecessor_tree.
  rewrite Hi, Hexec, (Hwalk fuel Hfuel).
  apply Nat.eqb_neq in Hdeg. rewrite Hdeg. simpl.
  destruct (write_children _ _ _ _ _ _ _ _ _) as [[buff|e] [c l]] eqn:Hloop.
  - eexists _, _. split; [done|]. intros ei details [= <- <-].
    split; [done|].
    apply write_children_extends in Hloop as [rest ->]. exists rest.
    unfold write_nl, traceback_text.
    destruct (exc_info fail); simpl; by rewrite ?append_assoc.
  - eexists _, _. split; [done|]. by intros ei details.
Qed.

Lemma format_header_counts_predecessors_witness :
  ∃ k (preds : gset atom),
    (∀ p, p ∈ preds ↔ tc (edge line_graph) (item (Node a2 [])) p) ∧
    ∀ fuel, k ≤ fuel →
      ∃ r log',
        format "EXECUTE" show_keys "|" pformat_node fuel hide_bye (Some storage_a)
          (Some line_graph) (Some (Node a2 [])) remote_failure [] =
          Some (r, log') ∧
        ∀ ei details,
          r = Ok (ei, details) →
          ei = exc_info remote_failure ∧
          ∃ rest,
            details =
              traceback_text "|" remote_failure +:+ pretty (size preds) +:+
              " predecessors (most recent atoms first):" +:+ "|" +:+ rest.
Proof.
  refine (format_header_counts_predecessors "EXECUTE" show_keys "|" pformat_node
            hide_bye storage_a line_graph (Node a2 []) remote_failure []
            (VStr "EXECUTE") _ _ _ _ _).
  - apply graph_closedb_correct. vm_compute. reflexivity.
  - apply (ranked_acyclic (λ a, String.length (name a) +
                                 match name a with
                                 | "a0" => 0 | "a1" => 1 | _ => 2
                                 end)).
    vm_compute. reflexivity.
  - vm_compute. lia.
  - reflexivity.
  - reflexivity.
Defined.

End formatters_format_proofs.
